(** * K-armed bandits in action: the slot-machine environment and its agents

    A shallow embedding of the notebook
    [rl-cookbook/implementation-notebooks/3.8.1_k_armed_bandits_in_action.ipynb]:
    the class [SlotMachineEnvironment] and the three agents [RandomAgent],
    [EpsilonGreedyAgent] and [ThompsonSamplingAgent].

    Modelling choices.
    - Python numbers that hold rewards, probabilities and averages are
      rationals ([Q]); the comparisons [<] and [>] of the source are the
      boolean [Qltb].  Arrays made by [np.zeros] that only ever receive
      [+= 1] (pull counts, successes, failures) are lists of [nat].
    - The two random generators of the source (numpy's global generator,
      used by [np.random.random] and [np.random.choice], and the generator
      of Python's [random] module, used by [random.betavariate]) are a
      [RandomSource]: the draws are functions of a position, and the
      program state carries one position per generator.
    - Everything runs in a state-and-exception monad [M] over a [World]
      that holds the environment object, the module-level variable
      [rewards] of the notebook, and the two generator positions.  Python
      exceptions are the left summand of the result. *)

From Stdlib Require Import ZArith QArith Lia.
From stdpp Require Import base list.

Open Scope Q_scope.

(** ** Numbers *)

(** [x < y] on rationals, as a boolean. *)
Definition Qltb (x y : Q) : bool :=
  (Qnum x * QDen y <? Qnum y * QDen x)%Z.

(** A [nat] held in a float array, read back as a number. *)
Definition Qnat (n : nat) : Q := inject_Z (Z.of_nat n).

(** ** Exceptions, the world and the monad *)

Inductive Exn : Type :=
| IndexError
| ValueError
| ZeroDivisionError.

(** The instance attributes set by [SlotMachineEnvironment.__init__]. *)
Record SlotMachineEnvironment : Type := mkEnv {
  reward_probabilities : list Q;
  rewards : list Q;
  k_arms : nat
}.

(** The draws of the random generators, by position. [betavariate] also
    depends on the two parameters it is called with. *)
Record RandomSource : Type := mkRandom {
  np_random_random : nat -> Q;
  np_random_choice : nat -> nat -> nat;
  random_betavariate : nat -> Q -> Q -> Q
}.

Record World : Type := mkWorld {
  environment : SlotMachineEnvironment;
  (** the notebook's module-level variable [rewards] *)
  global_rewards : list Q;
  source : RandomSource;
  (** position of numpy's global generator *)
  np_state : nat;
  (** position of the generator of the [random] module *)
  py_state : nat
}.

Definition M (A : Type) : Type := World -> (Exn + A) * World.

Definition ret {A} (a : A) : M A := fun w => (inr a, w).

Definition raise {A} (e : Exn) : M A := fun w => (inl e, w).

Definition bind {A B} (m : M A) (f : A -> M B) : M B :=
  fun w =>
    match m w with
    | (inl e, w') => (inl e, w')
    | (inr a, w') => f a w'
    end.

Declare Scope py_scope.
Delimit Scope py_scope with py.
Notation "x <- m ;; k" := (bind m (fun x => k))
  (at level 100, m at next level, right associativity) : py_scope.
Open Scope py_scope.

(** An operation that cannot touch the world. *)
Definition lift {A} (r : Exn + A) : M A := fun w => (r, w).

(** [self.environment]: the environment object, read from the world. *)
Definition get_environment : M SlotMachineEnvironment :=
  fun w => (inr (environment w), w).

(** The module-level variable [rewards]. *)
Definition get_global_rewards : M (list Q) :=
  fun w => (inr (global_rewards w), w).

(** [np.random.random()]: one draw of numpy's generator. *)
Definition np_random : M Q :=
  fun w =>
    (inr (np_random_random (source w) (np_state w)),
     mkWorld (environment w) (global_rewards w) (source w)
             (S (np_state w)) (py_state w)).

(** [np.random.choice(k)] for an integer [k]: an element of [range(k)];
    numpy raises [ValueError] when [k] is not positive. *)
Definition np_choice (k : nat) : M nat :=
  fun w =>
    match k with
    | O => (inl ValueError, w)
    | S _ =>
      (inr (np_random_choice (source w) (np_state w) k),
       mkWorld (environment w) (global_rewards w) (source w)
               (S (np_state w)) (py_state w))
    end.

(** [random.betavariate(a, b)]: one draw of the [random] module. *)
Definition betavariate (a b : Q) : M Q :=
  fun w =>
    (inr (random_betavariate (source w) (py_state w) a b),
     mkWorld (environment w) (global_rewards w) (source w)
             (np_state w) (S (py_state w))).

(** ** Sequences *)

(** [l[i]] on a Python sequence: a negative index counts from the end,
    anything outside [-len(l) <= i < len(l)] raises [IndexError]. *)
Definition py_getitem {A} (l : list A) (i : Z) : Exn + A :=
  let n := Z.of_nat (length l) in
  let j := if (i <? 0)%Z then (n + i)%Z else i in
  if ((0 <=? j)%Z && (j <? n)%Z)%bool then
    match l !! Z.to_nat j with
    | Some x => inr x
    | None => inl IndexError
    end
  else inl IndexError.

(** [a[i]] on a numpy array, for an index that is never negative. *)
Definition np_get {A} (a : list A) (i : nat) : Exn + A :=
  match a !! i with
  | Some x => inr x
  | None => inl IndexError
  end.

(** [a[i] = x] on a numpy array. *)
Definition np_set {A} (a : list A) (i : nat) (x : A) : Exn + list A :=
  match a !! i with
  | Some _ => inr (<[i := x]> a)
  | None => inl IndexError
  end.

(** [a[i] += 1] on an array of counts. *)
Definition np_incr (a : list nat) (i : nat) : Exn + list nat :=
  match a !! i with
  | Some c => inr (<[i := (c + 1)%nat]> a)
  | None => inl IndexError
  end.

(** [a[i] += x] on an array of numbers. *)
Definition np_add (a : list Q) (i : nat) (x : Q) : Exn + list Q :=
  match a !! i with
  | Some y => inr (<[i := y + x]> a)
  | None => inl IndexError
  end.

(** [np.zeros(k)], for counts and for numbers. *)
Definition np_zeros_nat (k : nat) : list nat := replicate k O.
Definition np_zeros (k : nat) : list Q := replicate k 0.

(** [sum(l)]: a left-to-right sum that starts at 0. *)
Definition py_sum (l : list Q) : Q := fold_left Qplus l 0.

(** [sum(l)/len(l)]: true division, [ZeroDivisionError] on an empty list. *)
Definition py_mean (l : list Q) : Exn + Q :=
  match l with
  | [] => inl ZeroDivisionError
  | _ :: _ => inr (py_sum l / Qnat (length l))
  end.

(** A left-to-right scan for the first maximum: [best] is the largest
    entry so far with its index, and only a strictly larger entry
    replaces it. [i] is the index of the head of [l]. *)
Fixpoint scan_max (best : Q * nat) (i : nat) (l : list Q) : Q * nat :=
  match l with
  | [] => best
  | x :: t => scan_max (if Qltb (fst best) x then (x, i) else best) (S i) t
  end.

(** [np.argmax(a)]: the index of the first occurrence of the maximum;
    [ValueError] on an empty array. *)
Definition np_argmax (a : list Q) : Exn + nat :=
  match a with
  | [] => inl ValueError
  | x :: t => inr (snd (scan_max (x, O) 1 t))
  end.

(** [range(n)]. *)
Definition py_range (n : nat) : list nat := seq 0 n.

(** [for x in l: body], threading the local variables [s]; an exception
    in the body ends the loop. *)
Fixpoint for_in {A S} (l : list A) (body : A -> S -> M S) (s : S) : M S :=
  match l with
  | [] => ret s
  | x :: t => s' <- body x s ;; for_in t body s'
  end.

(** ** The environment *)

(** [SlotMachineEnvironment.__init__]: both arguments are stored as they
    are, and [k_arms] is the length of [rewards]. *)
Definition SlotMachineEnvironment_init
    (reward_probabilities0 rewards0 : list Q) : SlotMachineEnvironment :=
  {| reward_probabilities := reward_probabilities0;
     rewards := rewards0;
     k_arms := length rewards0 |}.

(** [SlotMachineEnvironment.pull]: the sample is drawn first, then the
    probability of the arm is indexed, and the payout only on success. *)
Definition pull (arm : Z) : M Q :=
  self <- get_environment ;;
  u <- np_random ;;
  p <- lift (py_getitem (reward_probabilities self) arm) ;;
  if Qltb u p then lift (py_getitem (rewards self) arm) else ret 0.

(** ** RandomAgent *)

Module RandomAgent.

(** The attributes set by [__init__]; [environment] is the environment
    object of the world.  [steps] is the number of turns of
    [for _ in range(self.steps)]. *)
Record t : Type := new { steps : nat }.

(** The local variables of [step]. *)
Record locals : Type := mkLocals {
  count_of_arms_pulled : list nat;
  rewards_obtained : list Q;
  cumulative_rewards : list Q
}.

(** One turn of the loop.  The average that is appended is taken over
    the module-level [rewards], not over [rewards_obtained]. *)
Definition body (l : locals) : M locals :=
  env <- get_environment ;;
  arm_to_pull <- np_choice (k_arms env) ;;
  reward <- pull (Z.of_nat arm_to_pull) ;;
  count' <- lift (np_incr (count_of_arms_pulled l) arm_to_pull) ;;
  g <- get_global_rewards ;;
  avg <- lift (py_mean g) ;;
  ret {| count_of_arms_pulled := count';
         rewards_obtained := rewards_obtained l ++ [reward];
         cumulative_rewards := cumulative_rewards l ++ [avg] |}.

Definition loop (self : t) : M locals :=
  env <- get_environment ;;
  for_in (py_range (steps self)) (fun _ => body)
    {| count_of_arms_pulled := np_zeros_nat (k_arms env);
       rewards_obtained := [];
       cumulative_rewards := [] |}.

Definition step (self : t) : M (list nat * list Q * list Q) :=
  l <- loop self ;;
  ret (count_of_arms_pulled l, rewards_obtained l, cumulative_rewards l).

End RandomAgent.

(** ** EpsilonGreedyAgent *)

Module EpsilonGreedyAgent.

(** The attributes set by [__init__], besides [environment]. *)
Record t : Type := new { steps : nat; epsilon : Q }.

(** The local variables of [step]; [rewards] is the local list of the
    payouts, which hides the module-level [rewards] inside this method. *)
Record locals : Type := mkLocals {
  q_values : list Q;
  rewards_obtained_per_arm : list Q;
  count_of_arms_pulled : list nat;
  rewards : list Q;
  cumulative_rewards : list Q
}.

(** The choice of the arm: explore below [epsilon], exploit otherwise. *)
Definition select (epsilon0 : Q) (k : nat) (q : list Q) : M nat :=
  u <- np_random ;;
  if Qltb u epsilon0 then np_choice k else lift (np_argmax q).

(** The bookkeeping after a pull of [arm] that paid [reward]. *)
Definition update (l : locals) (arm : nat) (reward : Q) : Exn + locals :=
  match np_add (rewards_obtained_per_arm l) arm reward with
  | inl e => inl e
  | inr sums =>
    match np_incr (count_of_arms_pulled l) arm with
    | inl e => inl e
    | inr counts =>
      match np_get sums arm, np_get counts arm with
      | inr s, inr c =>
        match np_set (q_values l) arm (s / Qnat c) with
        | inl e => inl e
        | inr q =>
          match py_mean (rewards l ++ [reward]) with
          | inl e => inl e
          | inr avg =>
            inr {| q_values := q;
                   rewards_obtained_per_arm := sums;
                   count_of_arms_pulled := counts;
                   rewards := rewards l ++ [reward];
                   cumulative_rewards := cumulative_rewards l ++ [avg] |}
          end
        end
      | inl e, _ => inl e
      | _, inl e => inl e
      end
    end
  end.

Definition body (epsilon0 : Q) (k : nat) (l : locals) : M locals :=
  arm_to_pull <- select epsilon0 k (q_values l) ;;
  reward <- pull (Z.of_nat arm_to_pull) ;;
  lift (update l arm_to_pull reward).

Definition init (k : nat) : locals :=
  {| q_values := np_zeros k;
     rewards_obtained_per_arm := np_zeros k;
     count_of_arms_pulled := np_zeros_nat k;
     rewards := [];
     cumulative_rewards := [] |}.

Definition loop (self : t) : M locals :=
  env <- get_environment ;;
  for_in (py_range (steps self))
    (fun _ => body (epsilon self) (k_arms env)) (init (k_arms env)).

Definition step (self : t) : M (list nat * list Q * list Q) :=
  l <- loop self ;;
  ret (count_of_arms_pulled l, rewards l, cumulative_rewards l).

End EpsilonGreedyAgent.

(** ** ThompsonSamplingAgent *)

Module ThompsonSamplingAgent.

(** The attributes set by [__init__], besides [environment]. *)
Record t : Type := new { steps : nat }.

(** [rewards_obtained] holds the successes of each arm (alpha) and
    [failures] its failures (beta); [total_rewards] is the list of the
    payouts, one per step. *)
Record locals : Type := mkLocals {
  count_of_arms_pulled : list nat;
  rewards_obtained : list nat;
  failures : list nat;
  cumulative_rewards : list Q;
  total_rewards : list Q
}.

(** One turn of the inner loop over the arms: a draw for arm [j], kept
    when it is strictly above the best draw so far. *)
Definition scan (l : locals) (j : nat) (best : Q * nat) : M (Q * nat) :=
  a <- lift (np_get (rewards_obtained l) j) ;;
  b <- lift (np_get (failures l) j) ;;
  beta_d <- betavariate (Qnat a + 1) (Qnat b + 1) ;;
  if Qltb (fst best) beta_d then ret (beta_d, j) else ret best.

(** The inner loop, from [beta_max = 0] and [arm_to_pull = 0]. *)
Definition select (k : nat) (l : locals) : M nat :=
  best <- for_in (py_range k) (scan l) (0, O) ;;
  ret (snd best).

(** The bookkeeping after the pull: a payout above 90 is a success. *)
Definition update (l : locals) (count' : list nat) (arm : nat) (reward : Q)
  : Exn + locals :=
  let record (alpha beta : list nat) :=
    match py_mean (total_rewards l ++ [reward]) with
    | inl e => inl e
    | inr avg =>
      inr {| count_of_arms_pulled := count';
             rewards_obtained := alpha;
             failures := beta;
             cumulative_rewards := cumulative_rewards l ++ [avg];
             total_rewards := total_rewards l ++ [reward] |}
    end in
  if Qltb 90 reward then
    match np_incr (rewards_obtained l) arm with
    | inl e => inl e
    | inr alpha => record alpha (failures l)
    end
  else
    match np_incr (failures l) arm with
    | inl e => inl e
    | inr beta => record (rewards_obtained l) beta
    end.

Definition body (k : nat) (l : locals) : M locals :=
  arm_to_pull <- select k l ;;
  count' <- lift (np_incr (count_of_arms_pulled l) arm_to_pull) ;;
  reward <- pull (Z.of_nat arm_to_pull) ;;
  lift (update l count' arm_to_pull reward).

Definition init (k : nat) : locals :=
  {| count_of_arms_pulled := np_zeros_nat k;
     rewards_obtained := np_zeros_nat k;
     failures := np_zeros_nat k;
     cumulative_rewards := [];
     total_rewards := [] |}.

Definition loop (self : t) : M locals :=
  env <- get_environment ;;
  for_in (py_range (steps self)) (fun _ => body (k_arms env))
    (init (k_arms env)).

(** The second component that is returned is [rewards_obtained], the
    successes of each arm. *)
Definition step (self : t) : M (list nat * list nat * list Q) :=
  l <- loop self ;;
  ret (count_of_arms_pulled l, rewards_obtained l, cumulative_rewards l).

End ThompsonSamplingAgent.

(** ** Predicates of the specification *)

(** The invariant of the data model: one probability and one payout per
    arm. *)
Definition env_invariant (env : SlotMachineEnvironment) : Prop :=
  length (reward_probabilities env) = k_arms env /\
  length (rewards env) = k_arms env.

(** What the generators promise: [np.random.random] is in [[0, 1)],
    [np.random.choice(k)] is in [range(k)], and a draw of a Beta
    distribution is not negative. *)
Definition source_ok (src : RandomSource) : Prop :=
  (forall t, 0 <= np_random_random src t /\ np_random_random src t < 1) /\
  (forall t k, (0 < k)%nat -> (np_random_choice src t k < k)%nat) /\
  (forall t a b, 0 <= random_betavariate src t a b).

(** [i] is the lowest index at which [xs] is maximal. *)
Definition first_max (xs : list Q) (i : nat) : Prop :=
  exists x, xs !! i = Some x /\
    (forall j y, xs !! j = Some y -> y <= x) /\
    (forall j y, xs !! j = Some y -> (j < i)%nat -> y < x).

(** The world after one draw of numpy's generator, and after [n] draws of
    the generator of the [random] module. *)
Definition tick_np (w : World) : World :=
  mkWorld (environment w) (global_rewards w) (source w)
          (S (np_state w)) (py_state w).

Definition tick_py (n : nat) (w : World) : World :=
  mkWorld (environment w) (global_rewards w) (source w)
          (np_state w) (n + py_state w).

(** [m] returns normally from [w], with a value and a world in [post]. *)
Definition returns {A} (m : M A) (w : World) (post : A -> World -> Prop)
  : Prop :=
  exists a w', m w = (inr a, w') /\ post a w'.

(** [m] leaves the environment object as it found it, also when it
    raises. *)
Definition frame_env {A} (m : M A) : Prop :=
  forall w, environment (snd (m w)) = environment w.

(** The draw for arm [j] at a turn that starts with the [random] module at
    position [t]. *)
Definition beta_draw (src : RandomSource) (t : nat) (alpha beta : list nat)
    (j : nat) : Q :=
  random_betavariate src (t + j)
    (Qnat (alpha !!! j) + 1) (Qnat (beta !!! j) + 1).

Definition beta_draws (src : RandomSource) (t : nat) (alpha beta : list nat)
    (k : nat) : list Q :=
  beta_draw src t alpha beta <$> seq 0 k.

(** The local variables of [EpsilonGreedyAgent.step] after a history of
    pulls, each an arm with the payout it gave. *)
Definition replay (k : nat) (history : list (nat * Q))
  : Exn + EpsilonGreedyAgent.locals :=
  fold_left
    (fun acc pulled =>
       match acc with
       | inl e => inl e
       | inr l => EpsilonGreedyAgent.update l (fst pulled) (snd pulled)
       end)
    history (inr (EpsilonGreedyAgent.init k)).

(** The worlds that differ from [w] only in the positions of the
    generators. *)
Definition same_setting (w w' : World) : Prop :=
  environment w' = environment w /\
  source w' = source w /\
  global_rewards w' = global_rewards w.

(** A generator for examples: numpy alternates 1/4 and 3/4, [choice]
    cycles through the arms, and the Beta draws alternate 1/3 and 2/3. *)
Definition example_source : RandomSource :=
  {| np_random_random := fun t => if Nat.even t then 1 # 4 else 3 # 4;
     np_random_choice := fun t k => (t mod k)%nat;
     random_betavariate := fun t _ _ => if Nat.even t then 1 # 3 else 2 # 3 |}.

(** A second generator: numpy always draws 0, [choice] gives the last
    arm, and every Beta draw is 1. *)
Definition other_source : RandomSource :=
  {| np_random_random := fun _ => 0;
     np_random_choice := fun _ k => Nat.pred k;
     random_betavariate := fun _ _ _ => 1 |}.

Definition example_env : SlotMachineEnvironment :=
  SlotMachineEnvironment_init [1 # 2; 1; 0] [95; 10; 7].

Definition example_world : World :=
  mkWorld example_env [95; 10; 7] example_source 0 0.

Definition other_world : World :=
  mkWorld example_env [] other_source 7 3.

(** ** Basic facts *)

Lemma Qltb_lt (x y : Q) : Qltb x y = true <-> x < y.
Proof. unfold Qltb, Qlt. apply Z.ltb_lt. Qed.

Lemma Qltb_ge (x y : Q) : Qltb x y = false <-> y <= x.
Proof. unfold Qltb, Qle. rewrite Z.ltb_ge. reflexivity. Qed.

Lemma Qltb_irrefl (x : Q) : Qltb x x = false.
Proof. apply Qltb_ge, Qle_refl. Qed.

Lemma example_source_ok : source_ok example_source.
Proof.
  repeat split; simpl.
  - destruct (Nat.even t); discriminate.
  - destruct (Nat.even t); reflexivity.
  - intros t k Hk. apply Nat.mod_upper_bound. lia.
  - intros t _ _. destruct (Nat.even t); discriminate.
Qed.

Lemma example_env_invariant : env_invariant example_env.
Proof. split; reflexivity. Qed.

(** *** The monad *)

Lemma returns_ret {A} (a : A) w (post : A -> World -> Prop) :
  post a w -> returns (ret a) w post.
Proof. intros H. exists a, w. split; [reflexivity | exact H]. Qed.

Lemma returns_lift {A} (r : Exn + A) (a : A) w (post : A -> World -> Prop) :
  r = inr a -> post a w -> returns (lift r) w post.
Proof. intros -> H. exists a, w. split; [reflexivity | exact H]. Qed.

Lemma returns_bind {A B} (m : M A) (f : A -> M B) w
    (post : B -> World -> Prop) :
  returns m w (fun a w' => returns (f a) w' post) ->
  returns (x <- m ;; f x) w post.
Proof.
  intros (a & w' & Hm & b & w'' & Hf & Hpost).
  exists b, w''. split; [| exact Hpost].
  unfold bind. rewrite Hm. exact Hf.
Qed.

Lemma returns_weaken {A} (m : M A) w (post post' : A -> World -> Prop) :
  returns m w post -> (forall a w', post a w' -> post' a w') ->
  returns m w post'.
Proof. intros (a & w' & Hm & Hp) H. exists a, w'. auto. Qed.

(** A loop invariant indexed by the number of turns already made. *)
Lemma returns_for_in {A S} (inv : nat -> S -> World -> Prop)
    (body : A -> S -> M S) (l : list A) :
  (forall i x s w, l !! i = Some x -> inv i s w ->
     returns (body x s) w (inv (Datatypes.S i))) ->
  forall s w, inv O s w ->
  returns (for_in l body s) w (inv (length l)).
Proof.
  revert inv. induction l as [| x t IH]; intros inv Hbody s w Hinv.
  - apply returns_ret. exact Hinv.
  - simpl. apply returns_bind.
    eapply returns_weaken; [apply (Hbody O x s w); [reflexivity | exact Hinv] |].
    intros s' w' Hs'. simpl.
    apply (IH (fun i => inv (Datatypes.S i))); [| exact Hs'].
    intros i y s0 w0 Hy. apply (Hbody (Datatypes.S i)). exact Hy.
Qed.

Lemma frame_ret {A} (a : A) : frame_env (ret a).
Proof. intros w. reflexivity. Qed.

Lemma frame_lift {A} (r : Exn + A) : frame_env (lift r).
Proof. intros w. reflexivity. Qed.

Lemma frame_bind {A B} (m : M A) (f : A -> M B) :
  frame_env m -> (forall a, frame_env (f a)) -> frame_env (x <- m ;; f x).
Proof.
  intros Hm Hf w. unfold bind. specialize (Hm w).
  destruct (m w) as [[e | a] w']; simpl in *.
  - exact Hm.
  - rewrite Hf. exact Hm.
Qed.

Lemma frame_for_in {A S} (l : list A) (body : A -> S -> M S) :
  (forall x s, frame_env (body x s)) -> forall s, frame_env (for_in l body s).
Proof.
  intros Hbody. induction l as [| x t IH]; intros s; simpl.
  - apply frame_ret.
  - apply frame_bind; [apply Hbody | exact IH].
Qed.

Lemma frame_get_environment : frame_env get_environment.
Proof. intros w. reflexivity. Qed.

Lemma frame_get_global_rewards : frame_env get_global_rewards.
Proof. intros w. reflexivity. Qed.

Lemma frame_np_random : frame_env np_random.
Proof. intros w. reflexivity. Qed.

Lemma frame_np_choice k : frame_env (np_choice k).
Proof. intros w. unfold np_choice. destruct k; reflexivity. Qed.

Lemma frame_betavariate a b : frame_env (betavariate a b).
Proof. intros w. reflexivity. Qed.

Create HintDb frame discriminated.
#[local] Hint Resolve frame_ret frame_lift frame_get_environment
  frame_get_global_rewards frame_np_random frame_np_choice
  frame_betavariate : frame.

Ltac frame_step :=
  repeat first
    [ apply frame_bind; [| intros ?]
    | apply frame_for_in; intros ? ?
    | solve [auto with frame]
    | match goal with |- frame_env (if ?b then _ else _) => destruct b end ].

Lemma frame_pull arm : frame_env (pull arm).
Proof. unfold pull. frame_step. Qed.

#[local] Hint Resolve frame_pull : frame.

(** *** Sequences *)

Lemma py_getitem_nat {A} (l : list A) (i : nat) (x : A) :
  l !! i = Some x -> py_getitem l (Z.of_nat i) = inr x.
Proof.
  intros H. pose proof (lookup_lt_Some _ _ _ H) as Hlt.
  unfold py_getitem.
  destruct (Z.ltb_spec (Z.of_nat i) 0); [lia |].
  destruct (Z.leb_spec 0 (Z.of_nat i)); [| lia].
  destruct (Z.ltb_spec (Z.of_nat i) (Z.of_nat (length l))); [| lia].
  simpl. rewrite Nat2Z.id, H. reflexivity.
Qed.

Lemma py_getitem_neg {A} (l : list A) (a : Z) :
  (- Z.of_nat (length l) <= a < 0)%Z ->
  py_getitem l a = py_getitem l (Z.of_nat (length l) + a).
Proof.
  intros H. unfold py_getitem.
  destruct (Z.ltb_spec a 0); [| lia].
  destruct (Z.ltb_spec (Z.of_nat (length l) + a) 0); [lia |].
  reflexivity.
Qed.

Lemma py_getitem_out {A} (l : list A) (i : Z) :
  (Z.of_nat (length l) <= i)%Z -> py_getitem l i = inl IndexError.
Proof.
  intros H. unfold py_getitem.
  destruct (Z.ltb_spec i 0); [lia |].
  destruct (Z.ltb_spec i (Z.of_nat (length l))); [lia |].
  rewrite andb_false_r. reflexivity.
Qed.

(** *** The environment *)

Lemma np_random_eq w :
  np_random w = (inr (np_random_random (source w) (np_state w)), tick_np w).
Proof. reflexivity. Qed.

Lemma pull_eq (arm : nat) (p r : Q) w :
  reward_probabilities (environment w) !! arm = Some p ->
  rewards (environment w) !! arm = Some r ->
  pull (Z.of_nat arm) w =
  (inr (if Qltb (np_random_random (source w) (np_state w)) p then r else 0),
   tick_np w).
Proof.
  intros Hp Hr. unfold pull, bind, get_environment, lift. simpl.
  rewrite (py_getitem_nat _ _ _ Hp).
  destruct (Qltb _ p); [| reflexivity].
  rewrite (py_getitem_nat _ _ _ Hr). reflexivity.
Qed.

Lemma env_invariant_lookup env (arm : nat) :
  env_invariant env -> (arm < k_arms env)%nat ->
  exists p r, reward_probabilities env !! arm = Some p /\
              rewards env !! arm = Some r.
Proof.
  intros [Hp Hr] Hlt.
  destruct (lookup_lt_is_Some_2 (reward_probabilities env) arm) as [p Hp'];
    [lia |].
  destruct (lookup_lt_is_Some_2 (rewards env) arm) as [r Hr']; [lia |].
  eauto.
Qed.

Lemma pull_neg_eq (a : Z) w :
  env_invariant (environment w) ->
  (- Z.of_nat (k_arms (environment w)) <= a < 0)%Z ->
  pull a w = pull (Z.of_nat (k_arms (environment w)) + a) w.
Proof.
  intros [Hp Hr] Ha. unfold pull, bind, lift, get_environment. simpl.
  rewrite (py_getitem_neg (reward_probabilities (environment w)) a),
          (py_getitem_neg (rewards (environment w)) a) by lia.
  rewrite Hp, Hr. reflexivity.
Qed.

(** C1. On an environment that satisfies the invariant of the data model,
    [pull] at an arm index in [[0, k_arms)] draws exactly one sample [u] of
    numpy's generator and returns normally; the value is [rewards[arm]]
    when [u < reward_probabilities[arm]] and 0 otherwise, so it is always
    one of these two. *)
Theorem pull_valid_arm (w : World) (arm : nat) :
  env_invariant (environment w) ->
  (arm < k_arms (environment w))%nat ->
  exists p r,
    reward_probabilities (environment w) !! arm = Some p /\
    rewards (environment w) !! arm = Some r /\
    let u := np_random_random (source w) (np_state w) in
    let out := pull (Z.of_nat arm) w in
    (fst out = inr r \/ fst out = inr 0) /\
    (u < p -> fst out = inr r) /\
    (~ u < p -> fst out = inr 0) /\
    snd out = tick_np w.
Proof.
  intros Hinv Hlt.
  destruct (env_invariant_lookup _ _ Hinv Hlt) as (p & r & Hp & Hr).
  exists p, r. do 2 (split; [assumption |]).
  cbv zeta. rewrite (pull_eq arm p r w Hp Hr). simpl.
  destruct (Qltb _ p) eqn:E.
  - apply Qltb_lt in E. repeat split; auto. intros H. contradiction.
  - apply Qltb_ge in E. repeat split; auto.
    intros H. exfalso. apply (Qlt_irrefl p). eapply Qle_lt_trans; eassumption.
Qed.

Lemma pull_valid_arm_witness :
  env_invariant (environment example_world) /\
  (0 < k_arms (environment example_world))%nat /\
  exists p r,
    reward_probabilities (environment example_world) !! O = Some p /\
    rewards (environment example_world) !! O = Some r /\
    let u := np_random_random (source example_world)
                              (np_state example_world) in
    let out := pull (Z.of_nat 0) example_world in
    (fst out = inr r \/ fst out = inr 0) /\
    (u < p -> fst out = inr r) /\
    (~ u < p -> fst out = inr 0) /\
    snd out = tick_np example_world.
Proof.
  split; [split; reflexivity |]. split; [simpl; lia |].
  apply (pull_valid_arm example_world 0); [split; reflexivity | simpl; lia].
Defined.

(** Without the invariant the same call raises: the constructor accepts a
    list of probabilities that is shorter than the list of payouts. *)
Example pull_short_probabilities :
  fst (pull 0 (mkWorld (SlotMachineEnvironment_init [] [5]) [5]
                       example_source 0 0)) = inl IndexError.
Proof. reflexivity. Qed.

(** C10. On an environment that satisfies the invariant, [pull] at a
    negative index [a] with [-k_arms <= a < 0] does not raise: it is the
    same computation as [pull (k_arms + a)], and returns
    [rewards[k_arms + a]] when the sample is below
    [reward_probabilities[k_arms + a]] and 0 otherwise. *)
Theorem pull_negative_arm (w : World) (a : Z) :
  env_invariant (environment w) ->
  (- Z.of_nat (k_arms (environment w)) <= a < 0)%Z ->
  let arm := Z.to_nat (Z.of_nat (k_arms (environment w)) + a) in
  pull a w = pull (Z.of_nat (k_arms (environment w)) + a) w /\
  exists p r,
    reward_probabilities (environment w) !! arm = Some p /\
    rewards (environment w) !! arm = Some r /\
    pull a w =
    (inr (if Qltb (np_random_random (source w) (np_state w)) p
          then r else 0),
     tick_np w).
Proof.
  intros Hinv Ha arm.
  split; [apply pull_neg_eq; assumption |].
  assert (Hlt : (arm < k_arms (environment w))%nat) by (subst arm; lia).
  destruct (env_invariant_lookup _ _ Hinv Hlt) as (p & r & Hp & Hr).
  exists p, r. do 2 (split; [assumption |]).
  rewrite (pull_neg_eq a w Hinv Ha).
  replace (Z.of_nat (k_arms (environment w)) + a)%Z with (Z.of_nat arm)
    by (subst arm; lia).
  apply pull_eq; assumption.
Qed.

(** Without the invariant a negative index reaches different arms in the
    two lists: with three probabilities and two payouts, [pull(-1)] tests
    the third probability and pays, [pull(1)] tests the second and does
    not. *)
Example pull_negative_arm_mismatch :
  let w := mkWorld (SlotMachineEnvironment_init [1 # 10; 1 # 5; 1] [5; 6])
                   [5; 6] example_source 0 0 in
  fst (pull (-1) w) = inr 6 /\ fst (pull 1 w) = inr 0.
Proof. split; reflexivity. Qed.

Lemma pull_negative_arm_witness :
  env_invariant (environment example_world) /\
  (- Z.of_nat (k_arms (environment example_world)) <= -1 < 0)%Z /\
  pull (-1) example_world = pull 2 example_world /\
  pull (-1) example_world = (inr 0, tick_np example_world).
Proof.
  split; [split; reflexivity |]. split; [simpl; lia |].
  destruct (pull_negative_arm example_world (-1)) as [H _];
    [split; reflexivity | simpl; lia |].
  split; [exact H | reflexivity].
Defined.

(** C3, as the constructor behaves: [k_arms] is the length of [rewards]
    for every input, both lists are stored unchanged, and the invariant
    holds exactly when the two lists that were passed have equal
    lengths. *)
Theorem init_lengths (probabilities payouts : list Q) :
  let env := SlotMachineEnvironment_init probabilities payouts in
  reward_probabilities env = probabilities /\
  rewards env = payouts /\
  k_arms env = length (rewards env) /\
  (env_invariant env <-> length probabilities = length payouts).
Proof.
  simpl. repeat split; try reflexivity.
  - intros [H _]. exact H.
  - exact H.
Qed.

(** C3, as stated, fails: an environment with one arm and no
    probability. *)
Lemma init_invariant_counterexample :
  let env := SlotMachineEnvironment_init [] [5] in
  (1 <= k_arms env)%nat /\
  ~ (length (reward_probabilities env) = length (rewards env) /\
     length (rewards env) = k_arms env).
Proof. simpl. split; [lia |]. intros [H _]. discriminate H. Qed.

(** C9. [pull] and the three agents leave the environment object as they
    found it, whether they return or raise: [reward_probabilities],
    [rewards] and [k_arms] are the same afterwards. *)
Theorem environment_unchanged :
  (forall arm w,
      let env' := environment (snd (pull arm w)) in
      reward_probabilities env' = reward_probabilities (environment w) /\
      rewards env' = rewards (environment w) /\
      k_arms env' = k_arms (environment w)) /\
  (forall self, frame_env (RandomAgent.step self)) /\
  (forall self, frame_env (EpsilonGreedyAgent.step self)) /\
  (forall self, frame_env (ThompsonSamplingAgent.step self)).
Proof.
  split; [| split; [| split]].
  - intros arm w. simpl. rewrite (frame_pull arm w). auto.
  - intros self. unfold RandomAgent.step, RandomAgent.loop, RandomAgent.body.
    frame_step.
  - intros self.
    unfold EpsilonGreedyAgent.step, EpsilonGreedyAgent.loop,
      EpsilonGreedyAgent.body, EpsilonGreedyAgent.select.
    frame_step.
  - intros self.
    unfold ThompsonSamplingAgent.step, ThompsonSamplingAgent.loop,
      ThompsonSamplingAgent.body, ThompsonSamplingAgent.select,
      ThompsonSamplingAgent.scan.
    frame_step.
Qed.

(** *** The scan for the first maximum *)

(** The invariant of the scan: after the entries [pre], [best] bounds them
    all, is strictly above every entry before its index, and either is
    the entry at its index or is still the initial value at index 0, which
    no entry of the whole list is below. *)
Lemma scan_max_inv (l pre : list Q) (best : Q * nat) :
  (forall j y, pre !! j = Some y -> y <= fst best) ->
  (forall j y, pre !! j = Some y -> (j < snd best)%nat -> y < fst best) ->
  (pre !! snd best = Some (fst best) \/
   (snd best = O /\ forall j y, (pre ++ l) !! j = Some y -> fst best <= y)) ->
  let best' := scan_max best (length pre) l in
  (forall j y, (pre ++ l) !! j = Some y -> y <= fst best') /\
  (forall j y, (pre ++ l) !! j = Some y -> (j < snd best')%nat ->
               y < fst best') /\
  ((pre ++ l) !! snd best' = Some (fst best') \/
   (snd best' = O /\ forall j y, (pre ++ l) !! j = Some y -> fst best' <= y)).
Proof.
  revert pre best. induction l as [| x t IH]; intros pre best Hub Hlow Hat.
  - simpl. rewrite app_nil_r in *. auto.
  - simpl. rewrite (cons_middle x pre t), app_assoc.
    replace (Datatypes.S (length pre)) with (length (pre ++ [x]))
      by (rewrite length_app; simpl; lia).
    assert (Hpre : forall j, (j < length pre)%nat ->
                             (pre ++ [x]) !! j = pre !! j)
      by (intros j Hj; apply lookup_app_l; exact Hj).
    assert (Hlast : forall j y, (pre ++ [x]) !! j = Some y ->
                                pre !! j = Some y \/ (j = length pre /\ y = x)).
    { intros j y Hj. destruct (Nat.lt_ge_cases j (length pre)) as [Hlt | Hge].
      - left. rewrite <- Hpre by exact Hlt. exact Hj.
      - right. rewrite lookup_app_r in Hj by exact Hge.
        destruct (j - length pre)%nat as [| n] eqn:E; simpl in Hj.
        + split; [lia | congruence].
        + destruct n; discriminate Hj. }
    destruct (Qltb (fst best) x) eqn:E.
    + apply Qltb_lt in E. apply IH; simpl.
      * intros j y Hj. destruct (Hlast j y Hj) as [Hj' | [_ ->]].
        -- apply Qlt_le_weak. eapply Qle_lt_trans; [eapply Hub, Hj' | exact E].
        -- apply Qle_refl.
      * intros j y Hj Hlt. rewrite Hpre in Hj by exact Hlt.
        eapply Qle_lt_trans; [eapply Hub, Hj | exact E].
      * left. rewrite lookup_app_r by lia.
        rewrite Nat.sub_diag. reflexivity.
    + apply Qltb_ge in E. apply IH.
      * intros j y Hj. destruct (Hlast j y Hj) as [Hj' | [_ ->]].
        -- eapply Hub, Hj'.
        -- exact E.
      * intros j y Hj Hlt. destruct (Hlast j y Hj) as [Hj' | [-> ->]].
        -- eapply Hlow; eassumption.
        -- destruct Hat as [Hat | [Hat _]].
           ++ apply lookup_lt_Some in Hat. lia.
           ++ lia.
      * destruct Hat as [Hat | [H0 Hat]].
        -- left. rewrite Hpre by (eapply lookup_lt_Some, Hat). exact Hat.
        -- right. split; [exact H0 |].
           rewrite <- app_assoc, <- cons_middle. exact Hat.
Qed.

Lemma scan_max_first_max (l pre : list Q) (best : Q * nat) :
  pre ++ l <> [] ->
  (forall j y, pre !! j = Some y -> y <= fst best) ->
  (forall j y, pre !! j = Some y -> (j < snd best)%nat -> y < fst best) ->
  (pre !! snd best = Some (fst best) \/
   (snd best = O /\ forall j y, (pre ++ l) !! j = Some y -> fst best <= y)) ->
  first_max (pre ++ l) (snd (scan_max best (length pre) l)).
Proof.
  intros Hne Hub Hlow Hat.
  destruct (scan_max_inv l pre best Hub Hlow Hat) as (Hub' & Hlow' & Hat').
  destruct Hat' as [Hat' | [H0 Hat']].
  - exists (fst (scan_max best (length pre) l)). auto.
  - rewrite H0. destruct (pre ++ l) as [| y0 rest] eqn:E; [congruence |].
    exists y0. split; [reflexivity |]. split.
    + intros j y Hj. eapply Qle_trans; [eapply Hub', Hj |].
      apply (Hat' O). reflexivity.
    + intros j y _ Hj. lia.
Qed.

Lemma np_argmax_first_max (q : list Q) :
  q <> [] -> exists i, np_argmax q = inr i /\ first_max q i.
Proof.
  destruct q as [| x t]; [congruence |]. intros _.
  exists (snd (scan_max (x, O) 1 t)). split; [reflexivity |].
  apply (scan_max_first_max t [x] (x, O)).
  - discriminate.
  - intros [| j] y Hj; simpl in *; [| discriminate].
    injection Hj as <-. apply Qle_refl.
  - simpl. intros j y _ Hj. lia.
  - left. reflexivity.
Qed.

Lemma first_max_lt_length (xs : list Q) (i : nat) :
  first_max xs i -> (i < length xs)%nat.
Proof. intros (x & Hx & _). eapply lookup_lt_Some, Hx. Qed.


(** *** Arrays *)

Lemma np_incr_eq (a : list nat) (i c : nat) :
  a !! i = Some c -> np_incr a i = inr (<[i := (c + 1)%nat]> a).
Proof. intros H. unfold np_incr. rewrite H. reflexivity. Qed.

Lemma np_add_eq (a : list Q) (i : nat) (y x : Q) :
  a !! i = Some y -> np_add a i x = inr (<[i := y + x]> a).
Proof. intros H. unfold np_add. rewrite H. reflexivity. Qed.

Lemma np_set_eq {A} (a : list A) (i : nat) (x : A) :
  (i < length a)%nat -> np_set a i x = inr (<[i := x]> a).
Proof.
  intros H. unfold np_set.
  destruct (lookup_lt_is_Some_2 a i H) as [y ->]. reflexivity.
Qed.

Lemma np_get_eq {A} (a : list A) (i : nat) (x : A) :
  a !! i = Some x -> np_get a i = inr x.
Proof. intros H. unfold np_get. rewrite H. reflexivity. Qed.

Lemma sum_list_incr (a : list nat) (i c : nat) :
  a !! i = Some c ->
  sum_list (<[i := (c + 1)%nat]> a) = Datatypes.S (sum_list a).
Proof.
  revert i. induction a as [| x t IH]; intros [| i] H; simpl in *;
    try discriminate.
  - injection H as ->. lia.
  - rewrite (IH i H). lia.
Qed.

Lemma sum_list_zeros (k : nat) : sum_list (np_zeros_nat k) = O.
Proof. induction k as [| k IH]; simpl; [reflexivity | exact IH]. Qed.

Lemma py_mean_snoc (l : list Q) (x : Q) :
  py_mean (l ++ [x]) = inr (py_sum (l ++ [x]) / Qnat (length (l ++ [x]))).
Proof. destruct l; reflexivity. Qed.

(** *** EpsilonGreedyAgent: one turn *)

Lemma select_exploit (epsilon0 : Q) (k : nat) (q : list Q) w :
  ~ np_random_random (source w) (np_state w) < epsilon0 ->
  EpsilonGreedyAgent.select epsilon0 k q w = (np_argmax q, tick_np w).
Proof.
  intros H. unfold EpsilonGreedyAgent.select, bind. rewrite np_random_eq.
  destruct (Qltb _ epsilon0) eqn:E; [| reflexivity].
  apply Qltb_lt in E. contradiction.
Qed.

Lemma select_explore (epsilon0 : Q) (k : nat) (q : list Q) w :
  np_random_random (source w) (np_state w) < epsilon0 ->
  EpsilonGreedyAgent.select epsilon0 k q w = np_choice k (tick_np w).
Proof.
  intros H. unfold EpsilonGreedyAgent.select, bind. rewrite np_random_eq.
  apply Qltb_lt in H. rewrite H. reflexivity.
Qed.

Lemma update_eq (l : EpsilonGreedyAgent.locals) (arm : nat) (reward s : Q)
    (c : nat) :
  EpsilonGreedyAgent.rewards_obtained_per_arm l !! arm = Some s ->
  EpsilonGreedyAgent.count_of_arms_pulled l !! arm = Some c ->
  (arm < length (EpsilonGreedyAgent.q_values l))%nat ->
  EpsilonGreedyAgent.update l arm reward =
  inr {| EpsilonGreedyAgent.q_values :=
           <[arm := (s + reward) / Qnat (c + 1)]>
             (EpsilonGreedyAgent.q_values l);
         EpsilonGreedyAgent.rewards_obtained_per_arm :=
           <[arm := s + reward]>
             (EpsilonGreedyAgent.rewards_obtained_per_arm l);
         EpsilonGreedyAgent.count_of_arms_pulled :=
           <[arm := (c + 1)%nat]> (EpsilonGreedyAgent.count_of_arms_pulled l);
         EpsilonGreedyAgent.rewards :=
           EpsilonGreedyAgent.rewards l ++ [reward];
         EpsilonGreedyAgent.cumulative_rewards :=
           EpsilonGreedyAgent.cumulative_rewards l ++
           [py_sum (EpsilonGreedyAgent.rewards l ++ [reward]) /
            Qnat (length (EpsilonGreedyAgent.rewards l ++ [reward]))] |}.
Proof.
  intros Hs Hc Hq. unfold EpsilonGreedyAgent.update.
  rewrite (np_add_eq _ _ _ _ Hs), (np_incr_eq _ _ _ Hc).
  rewrite (np_get_eq (<[arm := s + reward]> _) arm (s + reward))
    by (apply list_lookup_insert_eq; eapply lookup_lt_Some, Hs).
  rewrite (np_get_eq (<[arm := (c + 1)%nat]> _) arm (c + 1)%nat)
    by (apply list_lookup_insert_eq; eapply lookup_lt_Some, Hc).
  rewrite (np_set_eq _ _ _ Hq), py_mean_snoc. reflexivity.
Qed.




(** *** Worlds *)

Lemma same_setting_refl w : same_setting w w.
Proof. repeat split. Qed.

Lemma same_setting_tick_np w w' :
  same_setting w w' -> same_setting w (tick_np w').
Proof. intros H. exact H. Qed.

Lemma same_setting_tick_py n w w' :
  same_setting w w' -> same_setting w (tick_py n w').
Proof. intros H. exact H. Qed.

Lemma np_choice_eq (k : nat) w :
  (0 < k)%nat ->
  np_choice k w = (inr (np_random_choice (source w) (np_state w) k), tick_np w).
Proof. intros H. destruct k; [lia | reflexivity]. Qed.

Lemma replicate_snoc {A} (n : nat) (x : A) :
  replicate n x ++ [x] = replicate (Datatypes.S n) x.
Proof. induction n as [| n IH]; simpl; [reflexivity | rewrite IH; reflexivity]. Qed.

Lemma pull_returns (arm : nat) w :
  env_invariant (environment w) -> (arm < k_arms (environment w))%nat ->
  exists reward, pull (Z.of_nat arm) w = (inr reward, tick_np w).
Proof.
  intros Hinv Hlt.
  destruct (env_invariant_lookup _ _ Hinv Hlt) as (p & r & Hp & Hr).
  eexists. apply (pull_eq arm p r w Hp Hr).
Qed.

(** *** RandomAgent: the run *)

Section RandomAgentRun.

Variable w0 : World.
Variable avg : Q.
Hypothesis Hinv : env_invariant (environment w0).
Hypothesis Hsrc : source_ok (source w0).
Hypothesis Harms : (1 <= k_arms (environment w0))%nat.
Hypothesis Havg : py_mean (global_rewards w0) = inr avg.

(** After [i] turns: the counts add up to [i], there are [i] payouts,
    and the series is [i] copies of the average. *)
Definition random_inv (i : nat) (l : RandomAgent.locals) (w : World)
  : Prop :=
  same_setting w0 w /\
  length (RandomAgent.count_of_arms_pulled l) = k_arms (environment w0) /\
  sum_list (RandomAgent.count_of_arms_pulled l) = i /\
  length (RandomAgent.rewards_obtained l) = i /\
  RandomAgent.cumulative_rewards l = replicate i avg.

Lemma random_body_inv i l w :
  random_inv i l w ->
  returns (RandomAgent.body l) w (random_inv (Datatypes.S i)).
Proof.
  intros ((Henv & Hs & Hg) & Hlen & Hsum & Hrew & Hcum).
  unfold RandomAgent.body.
  apply returns_bind, returns_ret. rewrite Henv.
  apply returns_bind.
  exists (np_random_choice (source w) (np_state w) (k_arms (environment w0))),
    (tick_np w).
  split; [apply np_choice_eq; lia |].
  set (arm := np_random_choice _ _ _).
  assert (Harm : (arm < k_arms (environment w0))%nat)
    by (subst arm; rewrite Hs; apply Hsrc; lia).
  destruct (pull_returns arm (tick_np w)) as [reward Hpull];
    [simpl; rewrite Henv; exact Hinv | simpl; rewrite Henv; exact Harm |].
  apply returns_bind. exists reward, (tick_np (tick_np w)).
  split; [exact Hpull |].
  destruct (lookup_lt_is_Some_2 (RandomAgent.count_of_arms_pulled l) arm)
    as [c Hc]; [lia |].
  apply returns_bind.
  eapply returns_lift; [apply (np_incr_eq _ _ _ Hc) |].
  apply returns_bind, returns_ret. simpl. rewrite Hg.
  apply returns_bind. eapply returns_lift; [exact Havg |].
  apply returns_ret. repeat split; simpl; try assumption.
  - rewrite length_insert. exact Hlen.
  - rewrite (sum_list_incr _ _ _ Hc), Hsum. reflexivity.
  - rewrite length_app, Hrew. simpl. lia.
  - rewrite Hcum. apply replicate_snoc.
Qed.

Lemma random_loop_inv (self : RandomAgent.t) :
  returns (RandomAgent.loop self) w0 (random_inv (RandomAgent.steps self)).
Proof.
  unfold RandomAgent.loop. apply returns_bind, returns_ret.
  pose proof (returns_for_in random_inv (fun _ : nat => RandomAgent.body)
                (py_range (RandomAgent.steps self))) as H.
  unfold py_range in *. rewrite length_seq in H. apply H.
  - intros i x s w _. apply random_body_inv.
  - repeat split; simpl.
    + apply length_replicate.
    + apply sum_list_zeros.
Qed.

End RandomAgentRun.

(** C2. A run of [RandomAgent] returns normally and its third component,
    the series of cumulative rewards, is [steps] copies of one number:
    [sum(rewards)/len(rewards)] over the module-level list [rewards], which
    is the list of payouts of the environment when, as in the notebook,
    the environment was built from that list.  The payouts that the agent
    obtained do not enter it. *)
Theorem random_agent_series (self : RandomAgent.t) (w : World) :
  env_invariant (environment w) ->
  source_ok (source w) ->
  (1 <= k_arms (environment w))%nat ->
  global_rewards w <> [] ->
  let avg := py_sum (global_rewards w) / Qnat (length (global_rewards w)) in
  exists counts obtained w',
    RandomAgent.step self w =
      (inr (counts, obtained, replicate (RandomAgent.steps self) avg), w') /\
    (global_rewards w = rewards (environment w) ->
     avg = py_sum (rewards (environment w)) /
           Qnat (length (rewards (environment w)))).
Proof.
  intros Hinv Hsrc Harms Hg avg.
  assert (Havg : py_mean (global_rewards w) = inr avg).
  { subst avg. destruct (global_rewards w); [congruence | reflexivity]. }
  destruct (random_loop_inv w avg Hinv Hsrc Harms Havg self)
    as (l & w' & Hloop & _ & _ & _ & _ & Hcum).
  exists (RandomAgent.count_of_arms_pulled l), (RandomAgent.rewards_obtained l),
    w'.
  split.
  - unfold RandomAgent.step, bind. rewrite Hloop. unfold ret.
    rewrite Hcum. reflexivity.
  - intros Heq. subst avg. rewrite Heq. reflexivity.
Qed.

Lemma random_agent_series_witness :
  exists counts obtained w',
    RandomAgent.step (RandomAgent.new 4) example_world =
      (inr (counts, obtained, replicate 4 (112 # 3)), w').
Proof.
  destruct (random_agent_series (RandomAgent.new 4) example_world)
    as (counts & obtained & w' & Hstep & _).
  - split; reflexivity.
  - exact example_source_ok.
  - simpl; lia.
  - discriminate.
  - exists counts, obtained, w'. exact Hstep.
Defined.

(** In the same run the agent obtained the payouts 0, 0, 10 and 0: their
    running averages stay below 4, the series stays at 112/3. *)
Example random_agent_series_not_running :
  fst (RandomAgent.step (RandomAgent.new 4) example_world) =
  inr ([2; 1; 1]%nat, [0; 0; 10; 0],
       [112 # 3; 112 # 3; 112 # 3; 112 # 3]).
Proof. reflexivity. Qed.

(** *** EpsilonGreedyAgent: the run *)

Section EpsilonGreedyRun.

Variable w0 : World.
Variable epsilon0 : Q.
Hypothesis Hinv : env_invariant (environment w0).
Hypothesis Hsrc : source_ok (source w0).
Hypothesis Harms : (1 <= k_arms (environment w0))%nat.

(** After [i] turns: every array has one entry per arm, the counts add
    up to [i], and there are [i] payouts and [i] averages. *)
Definition greedy_inv (i : nat) (l : EpsilonGreedyAgent.locals) (w : World)
  : Prop :=
  same_setting w0 w /\
  length (EpsilonGreedyAgent.q_values l) = k_arms (environment w0) /\
  length (EpsilonGreedyAgent.rewards_obtained_per_arm l) =
    k_arms (environment w0) /\
  length (EpsilonGreedyAgent.count_of_arms_pulled l) =
    k_arms (environment w0) /\
  sum_list (EpsilonGreedyAgent.count_of_arms_pulled l) = i /\
  length (EpsilonGreedyAgent.rewards l) = i /\
  length (EpsilonGreedyAgent.cumulative_rewards l) = i.

Lemma greedy_select_returns (q : list Q) w :
  same_setting w0 w -> length q = k_arms (environment w0) ->
  returns (EpsilonGreedyAgent.select epsilon0 (k_arms (environment w0)) q) w
    (fun arm w' => (arm < k_arms (environment w0))%nat /\
                   same_setting w0 w').
Proof.
  intros (Henv & Hs & Hg) Hq.
  destruct (Qlt_le_dec (np_random_random (source w) (np_state w)) epsilon0)
    as [Hlt | Hge].
  - exists (np_random_choice (source w) (S (np_state w))
                             (k_arms (environment w0))),
      (tick_np (tick_np w)).
    split; [| split; [rewrite Hs; apply Hsrc; lia | repeat split; assumption]].
    rewrite (select_explore _ _ _ _ Hlt). apply np_choice_eq. lia.
  - assert (Hq' : q <> []) by (intros ->; simpl in Hq; lia).
    destruct (np_argmax_first_max q Hq') as (arm & Harg & Hmax).
    exists arm, (tick_np w).
    split; [| split; [| repeat split; assumption]].
    + rewrite select_exploit, Harg; [reflexivity |].
      apply Qle_not_lt. exact Hge.
    + rewrite <- Hq. apply first_max_lt_length. exact Hmax.
Qed.

Lemma greedy_body_inv i l w :
  greedy_inv i l w ->
  returns (EpsilonGreedyAgent.body epsilon0 (k_arms (environment w0)) l) w
    (greedy_inv (Datatypes.S i)).
Proof.
  intros (Hset & Hq & Hsums & Hcounts & Hsum & Hrew & Hcum).
  unfold EpsilonGreedyAgent.body. apply returns_bind.
  eapply returns_weaken; [apply greedy_select_returns; assumption |].
  intros arm w1 (Harm & Henv & Hs & Hg). cbv beta.
  destruct (pull_returns arm w1) as [reward Hpull];
    [rewrite Henv; exact Hinv | rewrite Henv; exact Harm |].
  apply returns_bind. exists reward, (tick_np w1). split; [exact Hpull |].
  destruct (lookup_lt_is_Some_2
              (EpsilonGreedyAgent.rewards_obtained_per_arm l) arm)
    as [s Hs']; [lia |].
  destruct (lookup_lt_is_Some_2
              (EpsilonGreedyAgent.count_of_arms_pulled l) arm)
    as [c Hc]; [lia |].
  eapply returns_lift;
    [apply (update_eq l arm reward s c Hs' Hc); lia |].
  repeat split; simpl; try assumption;
    rewrite ?length_insert, ?length_app; simpl; try lia.
  rewrite (sum_list_incr _ _ _ Hc), Hsum. reflexivity.
Qed.

Lemma greedy_loop_inv (n : nat) :
  returns
    (EpsilonGreedyAgent.loop (EpsilonGreedyAgent.new n epsilon0)) w0
    (greedy_inv n).
Proof.
  unfold EpsilonGreedyAgent.loop. apply returns_bind, returns_ret. simpl.
  pose proof (returns_for_in greedy_inv
                (fun _ : nat =>
                   EpsilonGreedyAgent.body epsilon0 (k_arms (environment w0)))
                (py_range n)) as H.
  unfold py_range in *. rewrite length_seq in H. apply H.
  - intros i x s w _. apply greedy_body_inv.
  - repeat split; simpl; try apply length_replicate.
    apply sum_list_zeros.
Qed.

End EpsilonGreedyRun.

(** *** ThompsonSamplingAgent: one turn *)

Lemma tick_py_succ (n : nat) w : tick_py n (tick_py 1 w) = tick_py (S n) w.
Proof. unfold tick_py. simpl. f_equal. lia. Qed.

Lemma np_get_total (a : list nat) (i : nat) :
  (i < length a)%nat -> np_get a i = inr (a !!! i).
Proof.
  intros H. apply np_get_eq. apply list_lookup_lookup_total_lt. exact H.
Qed.

(** The inner loop over the arms [a], ..., [a + n - 1] is the scan for the
    first maximum over their draws, and uses one draw per arm. *)
Lemma thompson_scan_eq (l : ThompsonSamplingAgent.locals) (t n : nat) :
  forall (a : nat) (best : Q * nat) (w : World),
    py_state w = (t + a)%nat ->
    (a + n <= length (ThompsonSamplingAgent.rewards_obtained l))%nat ->
    (a + n <= length (ThompsonSamplingAgent.failures l))%nat ->
    for_in (seq a n) (ThompsonSamplingAgent.scan l) best w =
    (inr (scan_max best a
            (beta_draw (source w) t
               (ThompsonSamplingAgent.rewards_obtained l)
               (ThompsonSamplingAgent.failures l) <$> seq a n)),
     tick_py n w).
Proof.
  induction n as [| n IH]; intros a best w Ht Ha Hb.
  - destruct w; reflexivity.
  - cbn [seq for_in]. rewrite fmap_cons. cbn [scan_max].
    unfold bind at 1. unfold ThompsonSamplingAgent.scan at 1.
    unfold bind, lift, betavariate.
    rewrite (np_get_total _ a) by lia. rewrite (np_get_total _ a) by lia.
    rewrite Ht. fold (beta_draw (source w) t
                        (ThompsonSamplingAgent.rewards_obtained l)
                        (ThompsonSamplingAgent.failures l) a).
    rewrite <- Ht.
    change (mkWorld (environment w) (global_rewards w) (source w)
                    (np_state w) (S (py_state w))) with (tick_py 1 w).
    destruct (Qltb (fst best) _); unfold ret;
      rewrite IH by (simpl; lia); rewrite tick_py_succ; reflexivity.
Qed.

Lemma thompson_select_eq (k : nat) (l : ThompsonSamplingAgent.locals) w :
  (k <= length (ThompsonSamplingAgent.rewards_obtained l))%nat ->
  (k <= length (ThompsonSamplingAgent.failures l))%nat ->
  ThompsonSamplingAgent.select k l w =
  (inr (snd (scan_max (0, O) 0
               (beta_draws (source w) (py_state w)
                  (ThompsonSamplingAgent.rewards_obtained l)
                  (ThompsonSamplingAgent.failures l) k))),
   tick_py k w).
Proof.
  intros Ha Hb. unfold ThompsonSamplingAgent.select, bind, py_range.
  rewrite (thompson_scan_eq l (py_state w) k 0 (0, O) w) by lia.
  reflexivity.
Qed.

Lemma beta_draws_lookup src t alpha beta k j :
  (j < k)%nat ->
  beta_draws src t alpha beta k !! j = Some (beta_draw src t alpha beta j).
Proof.
  intros H. unfold beta_draws. rewrite list_lookup_fmap.
  rewrite lookup_seq_lt by exact H. reflexivity.
Qed.

Lemma beta_draws_nonneg src t alpha beta k j y :
  source_ok src -> beta_draws src t alpha beta k !! j = Some y -> 0 <= y.
Proof.
  intros (_ & _ & Hb) H. unfold beta_draws in H.
  rewrite list_lookup_fmap in H.
  destruct (seq 0 k !! j) as [i |]; simpl in H; [| discriminate].
  injection H as <-. apply Hb.
Qed.

Lemma beta_draws_first_max src t alpha beta k :
  source_ok src -> (1 <= k)%nat ->
  first_max (beta_draws src t alpha beta k)
    (snd (scan_max (0, O) 0 (beta_draws src t alpha beta k))).
Proof.
  intros Hsrc Hk.
  apply (scan_max_first_max (beta_draws src t alpha beta k) [] (0, O)).
  - simpl. intros H. apply (f_equal length) in H.
    unfold beta_draws in H. rewrite length_fmap, length_seq in H.
    simpl in H. lia.
  - intros j y Hj. discriminate Hj.
  - intros j y Hj. discriminate Hj.
  - right. split; [reflexivity |]. simpl. intros j y Hj.
    eapply beta_draws_nonneg; eassumption.
Qed.

Lemma thompson_update_success (l : ThompsonSamplingAgent.locals)
    (count' : list nat) (arm s : nat) (reward : Q) :
  90 < reward ->
  ThompsonSamplingAgent.rewards_obtained l !! arm = Some s ->
  ThompsonSamplingAgent.update l count' arm reward =
  inr {| ThompsonSamplingAgent.count_of_arms_pulled := count';
         ThompsonSamplingAgent.rewards_obtained :=
           <[arm := (s + 1)%nat]> (ThompsonSamplingAgent.rewards_obtained l);
         ThompsonSamplingAgent.failures := ThompsonSamplingAgent.failures l;
         ThompsonSamplingAgent.cumulative_rewards :=
           ThompsonSamplingAgent.cumulative_rewards l ++
           [py_sum (ThompsonSamplingAgent.total_rewards l ++ [reward]) /
            Qnat (length (ThompsonSamplingAgent.total_rewards l ++ [reward]))];
         ThompsonSamplingAgent.total_rewards :=
           ThompsonSamplingAgent.total_rewards l ++ [reward] |}.
Proof.
  intros Hr Hs. unfold ThompsonSamplingAgent.update.
  apply Qltb_lt in Hr. rewrite Hr, (np_incr_eq _ _ _ Hs), py_mean_snoc.
  reflexivity.
Qed.

Lemma thompson_update_failure (l : ThompsonSamplingAgent.locals)
    (count' : list nat) (arm f : nat) (reward : Q) :
  ~ 90 < reward ->
  ThompsonSamplingAgent.failures l !! arm = Some f ->
  ThompsonSamplingAgent.update l count' arm reward =
  inr {| ThompsonSamplingAgent.count_of_arms_pulled := count';
         ThompsonSamplingAgent.rewards_obtained :=
           ThompsonSamplingAgent.rewards_obtained l;
         ThompsonSamplingAgent.failures :=
           <[arm := (f + 1)%nat]> (ThompsonSamplingAgent.failures l);
         ThompsonSamplingAgent.cumulative_rewards :=
           ThompsonSamplingAgent.cumulative_rewards l ++
           [py_sum (ThompsonSamplingAgent.total_rewards l ++ [reward]) /
            Qnat (length (ThompsonSamplingAgent.total_rewards l ++ [reward]))];
         ThompsonSamplingAgent.total_rewards :=
           ThompsonSamplingAgent.total_rewards l ++ [reward] |}.
Proof.
  intros Hr Hf. unfold ThompsonSamplingAgent.update.
  destruct (Qltb 90 reward) eqn:E; [apply Qltb_lt in E; contradiction |].
  rewrite (np_incr_eq _ _ _ Hf), py_mean_snoc. reflexivity.
Qed.

(** One turn, up to the bookkeeping: the arm is the result of the scan
    over the draws, its count goes up before the pull, and the payout of
    the pull goes to [update]. *)
Lemma thompson_body_eq (k : nat) (l : ThompsonSamplingAgent.locals) w :
  env_invariant (environment w) ->
  source_ok (source w) ->
  k = k_arms (environment w) -> (1 <= k)%nat ->
  length (ThompsonSamplingAgent.count_of_arms_pulled l) = k ->
  length (ThompsonSamplingAgent.rewards_obtained l) = k ->
  length (ThompsonSamplingAgent.failures l) = k ->
  let draws := beta_draws (source w) (py_state w)
                 (ThompsonSamplingAgent.rewards_obtained l)
                 (ThompsonSamplingAgent.failures l) k in
  let arm := snd (scan_max (0, O) 0 draws) in
  exists reward c s f,
    first_max draws arm /\
    ThompsonSamplingAgent.count_of_arms_pulled l !! arm = Some c /\
    ThompsonSamplingAgent.rewards_obtained l !! arm = Some s /\
    ThompsonSamplingAgent.failures l !! arm = Some f /\
    pull (Z.of_nat arm) (tick_py k w) = (inr reward, tick_np (tick_py k w)) /\
    ThompsonSamplingAgent.body k l w =
    (ThompsonSamplingAgent.update l
       (<[arm := (c + 1)%nat]> (ThompsonSamplingAgent.count_of_arms_pulled l))
       arm reward,
     tick_np (tick_py k w)).
Proof.
  intros Hinv Hsrc Hk Hk1 Hcounts Halpha Hbeta draws arm.
  assert (Hmax : first_max draws arm)
    by (apply beta_draws_first_max; assumption).
  assert (Harm : (arm < k)%nat).
  { apply first_max_lt_length in Hmax. subst draws.
    unfold beta_draws in Hmax. rewrite length_fmap, length_seq in Hmax.
    exact Hmax. }
  destruct (lookup_lt_is_Some_2
              (ThompsonSamplingAgent.count_of_arms_pulled l) arm)
    as [c Hc]; [lia |].
  destruct (lookup_lt_is_Some_2
              (ThompsonSamplingAgent.rewards_obtained l) arm)
    as [s Hs]; [lia |].
  destruct (lookup_lt_is_Some_2 (ThompsonSamplingAgent.failures l) arm)
    as [f Hf]; [lia |].
  destruct (pull_returns arm (tick_py k w)) as [reward Hpull];
    [exact Hinv | simpl; lia |].
  exists reward, c, s, f. do 5 (split; [assumption |]).
  unfold ThompsonSamplingAgent.body, bind.
  rewrite thompson_select_eq by lia. fold draws. fold arm.
  unfold lift at 1. rewrite (np_incr_eq _ _ _ Hc), Hpull. reflexivity.
Qed.

(** C4. In a turn of [ThompsonSamplingAgent] over [k] arms one draw is
    taken per arm, the draw for arm [j] from Beta([successes[j] + 1],
    [failures[j] + 1]); the arm that is pulled is the lowest index at
    which the draws are maximal; and the turn ends with the success count
    of that arm one higher when the payout is strictly above 90, and with
    its failure count one higher otherwise, the other array unchanged. *)
Theorem thompson_turn (k : nat) (l : ThompsonSamplingAgent.locals)
    (w : World) :
  env_invariant (environment w) ->
  source_ok (source w) ->
  k = k_arms (environment w) -> (1 <= k)%nat ->
  length (ThompsonSamplingAgent.count_of_arms_pulled l) = k ->
  length (ThompsonSamplingAgent.rewards_obtained l) = k ->
  length (ThompsonSamplingAgent.failures l) = k ->
  let alpha := ThompsonSamplingAgent.rewards_obtained l in
  let beta := ThompsonSamplingAgent.failures l in
  let draws := beta_draws (source w) (py_state w) alpha beta k in
  (forall j, (j < k)%nat ->
     draws !! j =
     Some (random_betavariate (source w) (py_state w + j)
             (Qnat (alpha !!! j) + 1) (Qnat (beta !!! j) + 1))) /\
  exists arm reward s f l' w',
    ThompsonSamplingAgent.select k l w = (inr arm, tick_py k w) /\
    first_max draws arm /\
    alpha !! arm = Some s /\ beta !! arm = Some f /\
    pull (Z.of_nat arm) (tick_py k w) = (inr reward, w') /\
    ThompsonSamplingAgent.body k l w = (inr l', w') /\
    (90 < reward ->
     ThompsonSamplingAgent.rewards_obtained l' = <[arm := (s + 1)%nat]> alpha /\
     ThompsonSamplingAgent.failures l' = beta) /\
    (~ 90 < reward ->
     ThompsonSamplingAgent.failures l' = <[arm := (f + 1)%nat]> beta /\
     ThompsonSamplingAgent.rewards_obtained l' = alpha).
Proof.
  intros Hinv Hsrc Hk Hk1 Hcounts Halpha Hbeta alpha beta draws.
  split; [intros j Hj; apply beta_draws_lookup; exact Hj |].
  destruct (thompson_body_eq k l w Hinv Hsrc Hk Hk1 Hcounts Halpha Hbeta)
    as (reward & c & s & f & Hmax & Hc & Hs & Hf & Hpull & Hbody).
  fold alpha beta draws in Hmax, Hc, Hs, Hf, Hpull, Hbody.
  set (arm := snd (scan_max (0, O) 0 draws)) in *.
  destruct (Qlt_le_dec 90 reward) as [Hr | Hr].
  - eexists arm, reward, s, f, _, _.
    split; [apply thompson_select_eq; lia |].
    do 4 (split; [eassumption |]).
    split; [rewrite Hbody, (thompson_update_success _ _ _ s _ Hr Hs);
            reflexivity |].
    simpl. split; [auto |]. intros Hn. contradiction.
  - apply Qle_not_lt in Hr.
    eexists arm, reward, s, f, _, _.
    split; [apply thompson_select_eq; lia |].
    do 4 (split; [eassumption |]).
    split; [rewrite Hbody, (thompson_update_failure _ _ _ f _ Hr Hf);
            reflexivity |].
    simpl. split; [intros Hn; contradiction | auto].
Qed.

(** *** ThompsonSamplingAgent: the run *)

Section ThompsonRun.

Variable w0 : World.
Hypothesis Hinv : env_invariant (environment w0).
Hypothesis Hsrc : source_ok (source w0).
Hypothesis Harms : (1 <= k_arms (environment w0))%nat.

(** After [i] turns: every array has one entry per arm, the counts add
    up to [i], and the successes and the failures of an arm add up to
    its count. *)
Definition thompson_inv (i : nat) (l : ThompsonSamplingAgent.locals)
    (w : World) : Prop :=
  same_setting w0 w /\
  length (ThompsonSamplingAgent.count_of_arms_pulled l) =
    k_arms (environment w0) /\
  length (ThompsonSamplingAgent.rewards_obtained l) =
    k_arms (environment w0) /\
  length (ThompsonSamplingAgent.failures l) = k_arms (environment w0) /\
  sum_list (ThompsonSamplingAgent.count_of_arms_pulled l) = i /\
  (forall arm c,
      ThompsonSamplingAgent.count_of_arms_pulled l !! arm = Some c ->
      exists s f,
        ThompsonSamplingAgent.rewards_obtained l !! arm = Some s /\
        ThompsonSamplingAgent.failures l !! arm = Some f /\
        (s + f = c)%nat) /\
  length (ThompsonSamplingAgent.total_rewards l) = i /\
  length (ThompsonSamplingAgent.cumulative_rewards l) = i.

Lemma thompson_body_inv i l w :
  thompson_inv i l w ->
  returns (ThompsonSamplingAgent.body (k_arms (environment w0)) l) w
    (thompson_inv (Datatypes.S i)).
Proof.
  intros ((Henv & Hs & Hg) & Hcounts & Halpha & Hbeta & Hsum & Hsplit &
          Htot & Hcum).
  destruct (thompson_body_eq (k_arms (environment w0)) l w)
    as (reward & c & s & f & Hmax & Hc & Hs' & Hf & _ & Hbody);
    try assumption; try (rewrite ?Henv, ?Hs; assumption);
    try (rewrite Henv; reflexivity).
  set (arm := snd (scan_max _ _ _)) in *.
  destruct (Hsplit arm c Hc) as (s1 & f1 & Hs1 & Hf1 & Hsf).
  assert (s1 = s) by congruence. assert (f1 = f) by congruence.
  subst s1 f1.
  assert (Hother : forall (a : list nat) x arm',
             arm' <> arm -> <[arm := x]> a !! arm' = a !! arm')
    by (intros a x arm' Hne; apply list_lookup_insert_ne; congruence).
  assert (Hsame : forall (a : list nat) x y,
             a !! arm = Some y -> <[arm := x]> a !! arm = Some x)
    by (intros a x y Hy; apply list_lookup_insert_eq;
        eapply lookup_lt_Some, Hy).
  destruct (Qlt_le_dec 90 reward) as [Hr | Hr].
  - eexists _, _. split;
      [rewrite Hbody, (thompson_update_success _ _ _ s _ Hr Hs');
       reflexivity |].
    repeat split; simpl; try assumption;
      rewrite ?length_insert, ?length_app; simpl; try lia.
    + rewrite (sum_list_incr _ _ _ Hc), Hsum. reflexivity.
    + intros arm' c' Hc'. destruct (decide (arm' = arm)) as [-> | Hne].
      * rewrite (Hsame _ _ _ Hc) in Hc'. injection Hc' as <-.
        exists (s + 1)%nat, f. rewrite (Hsame _ _ _ Hs'), Hf.
        repeat split. lia.
      * rewrite (Hother _ _ _ Hne) in Hc'. rewrite (Hother _ _ _ Hne).
        apply Hsplit. exact Hc'.
  - apply Qle_not_lt in Hr. eexists _, _. split;
      [rewrite Hbody, (thompson_update_failure _ _ _ f _ Hr Hf);
       reflexivity |].
    repeat split; simpl; try assumption;
      rewrite ?length_insert, ?length_app; simpl; try lia.
    + rewrite (sum_list_incr _ _ _ Hc), Hsum. reflexivity.
    + intros arm' c' Hc'. destruct (decide (arm' = arm)) as [-> | Hne].
      * rewrite (Hsame _ _ _ Hc) in Hc'. injection Hc' as <-.
        exists s, (f + 1)%nat. rewrite (Hsame _ _ _ Hf), Hs'.
        repeat split. lia.
      * rewrite (Hother _ _ _ Hne) in Hc'. rewrite (Hother _ _ _ Hne).
        apply Hsplit. exact Hc'.
Qed.

Lemma thompson_loop_inv (self : ThompsonSamplingAgent.t) :
  returns (ThompsonSamplingAgent.loop self) w0
    (thompson_inv (ThompsonSamplingAgent.steps self)).
Proof.
  unfold ThompsonSamplingAgent.loop. apply returns_bind, returns_ret.
  pose proof (returns_for_in thompson_inv
                (fun _ : nat =>
                   ThompsonSamplingAgent.body (k_arms (environment w0)))
                (py_range (ThompsonSamplingAgent.steps self))) as H.
  unfold py_range in *. rewrite length_seq in H. apply H.
  - intros i x s w _. apply thompson_body_inv.
  - repeat split; simpl; try apply length_replicate.
    + apply sum_list_zeros.
    + intros arm c Hc. unfold np_zeros_nat in *.
      apply lookup_replicate in Hc as [-> Hlt].
      exists O, O. rewrite !lookup_replicate_2 by exact Hlt. auto.
Qed.

End ThompsonRun.

Lemma thompson_turn_witness :
  exists arm reward l' w',
    ThompsonSamplingAgent.select 3 (ThompsonSamplingAgent.init 3)
      example_world = (inr arm, tick_py 3 example_world) /\
    pull (Z.of_nat arm) (tick_py 3 example_world) = (inr reward, w') /\
    ThompsonSamplingAgent.body 3 (ThompsonSamplingAgent.init 3)
      example_world = (inr l', w').
Proof.
  destruct (thompson_turn 3 (ThompsonSamplingAgent.init 3) example_world)
    as (_ & arm & reward & s & f & l' & w' & Hsel & _ & _ & _ & Hpull &
        Hbody & _).
  - split; reflexivity.
  - exact example_source_ok.
  - reflexivity.
  - lia.
  - reflexivity.
  - reflexivity.
  - reflexivity.
  - exists arm, reward, l', w'. auto.
Defined.

(** C6. A run of [EpsilonGreedyAgent] of [n] steps returns counts that
    add up to [n]; a run of [ThompsonSamplingAgent] of [n] steps ends with
    counts that add up to [n] and, for every arm, with successes and
    failures that add up to the count of the arm. *)
Theorem pull_counts_add_up (w : World) (n : nat) (epsilon0 : Q) :
  env_invariant (environment w) ->
  source_ok (source w) ->
  (1 <= k_arms (environment w))%nat ->
  (exists counts obtained cumulative w',
      EpsilonGreedyAgent.step (EpsilonGreedyAgent.new n epsilon0) w =
        (inr (counts, obtained, cumulative), w') /\
      sum_list counts = n) /\
  (exists l w',
      ThompsonSamplingAgent.loop (ThompsonSamplingAgent.new n) w =
        (inr l, w') /\
      ThompsonSamplingAgent.step (ThompsonSamplingAgent.new n) w =
        (inr (ThompsonSamplingAgent.count_of_arms_pulled l,
              ThompsonSamplingAgent.rewards_obtained l,
              ThompsonSamplingAgent.cumulative_rewards l), w') /\
      (forall arm c,
          ThompsonSamplingAgent.count_of_arms_pulled l !! arm = Some c ->
          exists s f,
            ThompsonSamplingAgent.rewards_obtained l !! arm = Some s /\
            ThompsonSamplingAgent.failures l !! arm = Some f /\
            (s + f = c)%nat) /\
      sum_list (ThompsonSamplingAgent.count_of_arms_pulled l) = n).
Proof.
  intros Hinv Hsrc Harms. split.
  - destruct (greedy_loop_inv w epsilon0 Hinv Hsrc Harms n)
      as (l & w' & Hloop & _ & _ & _ & _ & Hsum & _).
    exists (EpsilonGreedyAgent.count_of_arms_pulled l),
      (EpsilonGreedyAgent.rewards l),
      (EpsilonGreedyAgent.cumulative_rewards l), w'.
    split; [| exact Hsum].
    unfold EpsilonGreedyAgent.step, bind. rewrite Hloop. reflexivity.
  - destruct (thompson_loop_inv w Hinv Hsrc Harms
                (ThompsonSamplingAgent.new n))
      as (l & w' & Hloop & _ & _ & _ & _ & Hsum & Hsplit & _).
    exists l, w'. split; [exact Hloop |]. split; [| split; assumption].
    unfold ThompsonSamplingAgent.step, bind. rewrite Hloop. reflexivity.
Qed.

Lemma pull_counts_add_up_witness :
  (exists counts obtained cumulative w',
      EpsilonGreedyAgent.step (EpsilonGreedyAgent.new 5 (1 # 2))
        example_world = (inr (counts, obtained, cumulative), w') /\
      sum_list counts = 5%nat) /\
  (exists l w',
      ThompsonSamplingAgent.loop (ThompsonSamplingAgent.new 5)
        example_world = (inr l, w') /\
      sum_list (ThompsonSamplingAgent.count_of_arms_pulled l) = 5%nat).
Proof.
  destruct (pull_counts_add_up example_world 5 (1 # 2)) as [Hg Ht].
  - split; reflexivity.
  - exact example_source_ok.
  - simpl; lia.
  - split; [exact Hg |].
    destruct Ht as (l & w' & Hloop & _ & _ & Hsum).
    exists l, w'. auto.
Defined.

(** *** EpsilonGreedyAgent: the local variables are a replay of the pulls *)

Lemma replay_snoc (k : nat) (history : list (nat * Q)) (arm : nat)
    (reward : Q) (l : EpsilonGreedyAgent.locals) :
  replay k history = inr l ->
  replay k (history ++ [(arm, reward)]) =
  EpsilonGreedyAgent.update l arm reward.
Proof.
  intros H. unfold replay in *. rewrite fold_left_app. simpl.
  rewrite H. reflexivity.
Qed.

Lemma greedy_body_update (epsilon0 : Q) (k : nat) l w l' w' :
  EpsilonGreedyAgent.body epsilon0 k l w = (inr l', w') ->
  exists arm reward, EpsilonGreedyAgent.update l arm reward = inr l'.
Proof.
  unfold EpsilonGreedyAgent.body, bind, lift. intros H.
  destruct (EpsilonGreedyAgent.select _ _ _ w) as [[e | arm] w1];
    [discriminate |].
  destruct (pull _ w1) as [[e | reward] w2]; [discriminate |].
  exists arm, reward. congruence.
Qed.

(** Whatever the generators give, the local variables after the loop are
    the replay of a history with one pull per turn. *)
Lemma greedy_loop_replay (epsilon0 : Q) (k : nat) (turns : list nat) :
  forall history l w l' w',
    replay k history = inr l ->
    for_in turns (fun _ => EpsilonGreedyAgent.body epsilon0 k) l w =
      (inr l', w') ->
    exists pulls, length pulls = length turns /\
                  replay k (history ++ pulls) = inr l'.
Proof.
  induction turns as [| x turns IH]; intros history l w l' w' Hl Hrun.
  - injection Hrun as <- _. exists []. rewrite app_nil_r. auto.
  - simpl in Hrun. unfold bind in Hrun.
    destruct (EpsilonGreedyAgent.body epsilon0 k l w)
      as [[e | l1] w1] eqn:Hbody; [discriminate |].
    destruct (greedy_body_update _ _ _ _ _ _ Hbody) as (arm & reward & Hup).
    destruct (IH (history ++ [(arm, reward)]) l1 w1 l' w') as (pulls & Hn & Hr).
    + rewrite (replay_snoc _ _ _ _ _ Hl). exact Hup.
    + exact Hrun.
    + exists ((arm, reward) :: pulls). simpl. split; [lia |].
      rewrite <- Hr, <- app_assoc. reflexivity.
Qed.


(** *** What the runs return *)

(** The second component that [RandomAgent] and [EpsilonGreedyAgent]
    return has one payout per step; the one that [ThompsonSamplingAgent]
    returns has one entry per arm. *)
Lemma second_component_lengths (w : World) (n : nat) (epsilon0 : Q) :
  env_invariant (environment w) ->
  source_ok (source w) ->
  (1 <= k_arms (environment w))%nat ->
  global_rewards w <> [] ->
  (exists r w', RandomAgent.step (RandomAgent.new n) w = (inr r, w') /\
                length (snd (fst r)) = n) /\
  (exists r w',
      EpsilonGreedyAgent.step (EpsilonGreedyAgent.new n epsilon0) w =
        (inr r, w') /\
      length (snd (fst r)) = n) /\
  (exists r w',
      ThompsonSamplingAgent.step (ThompsonSamplingAgent.new n) w =
        (inr r, w') /\
      length (snd (fst r)) = k_arms (environment w)).
Proof.
  intros Hinv Hsrc Harms Hg. split; [| split].
  - assert (Havg : exists avg, py_mean (global_rewards w) = inr avg)
      by (destruct (global_rewards w); [congruence | eexists; reflexivity]).
    destruct Havg as [avg Havg].
    destruct (random_loop_inv w avg Hinv Hsrc Harms Havg (RandomAgent.new n))
      as (l & w' & Hloop & _ & _ & _ & Hlen & _).
    eexists _, w'. unfold RandomAgent.step, bind. rewrite Hloop.
    split; [reflexivity | exact Hlen].
  - destruct (greedy_loop_inv w epsilon0 Hinv Hsrc Harms n)
      as (l & w' & Hloop & _ & _ & _ & _ & _ & Hlen & _).
    eexists _, w'. unfold EpsilonGreedyAgent.step, bind. rewrite Hloop.
    split; [reflexivity | exact Hlen].
  - destruct (thompson_loop_inv w Hinv Hsrc Harms
                (ThompsonSamplingAgent.new n))
      as (l & w' & Hloop & _ & _ & Hlen & _).
    eexists _, w'. unfold ThompsonSamplingAgent.step, bind. rewrite Hloop.
    split; [reflexivity | exact Hlen].
Qed.

(** C8 at a run of [ThompsonSamplingAgent] of 4 steps over 3 arms: the
    payouts of the four steps were 10, 0, 10 and 0, and the second
    component that is returned is the array of successes of the three
    arms, all 0, not these payouts. *)
Theorem thompson_step_returns_successes :
  exists l w',
    ThompsonSamplingAgent.loop (ThompsonSamplingAgent.new 4) example_world =
      (inr l, w') /\
    ThompsonSamplingAgent.total_rewards l = [10; 0; 10; 0] /\
    fst (ThompsonSamplingAgent.step (ThompsonSamplingAgent.new 4)
           example_world) =
    inr ([2; 2; 0]%nat, [0; 0; 0]%nat, [10; 10 # 2; 20 # 3; 20 # 4]).
Proof.
  destruct (ThompsonSamplingAgent.loop (ThompsonSamplingAgent.new 4)
              example_world) as [[e | l] w'] eqn:E.
  - vm_compute in E. discriminate E.
  - exists l, w'. split; [reflexivity |].
    assert (Hl : inr l = fst (ThompsonSamplingAgent.loop
                                (ThompsonSamplingAgent.new 4) example_world))
      by (rewrite E; reflexivity).
    vm_compute in Hl. injection Hl as ->. split; reflexivity.
Qed.

(** The scenario of the specification: two arms, the first always pays
    10 and the second never pays; with [epsilon = 0] and 5 steps the agent
    pulls arm 0 at every step and obtains 10 each time. *)
Example epsilon_zero_scenario :
  fst (EpsilonGreedyAgent.step (EpsilonGreedyAgent.new 5 0)
         (mkWorld (SlotMachineEnvironment_init [1; 0] [10; 10]) [10; 10]
                  example_source 0 0)) =
  inr ([5; 0]%nat, [10; 10; 10; 10; 10],
       [10; 20 # 2; 30 # 3; 40 # 4; 50 # 5]).
Proof. reflexivity. Qed.


(** * Further properties of the environment and of the runs *)

(** ** [pull] at its edges *)

Lemma py_getitem_below {A} (l : list A) (i : Z) :
  (i < - Z.of_nat (length l))%Z -> py_getitem l i = inl IndexError.
Proof.
  intros H. unfold py_getitem.
  destruct (Z.ltb_spec i 0); [| lia].
  destruct (Z.leb_spec 0 (Z.of_nat (length l) + i)); [lia |].
  reflexivity.
Qed.

(** X1. An arm index outside
    [-len(reward_probabilities) <= arm < len(reward_probabilities)] makes
    [pull] raise [IndexError], and the sample of numpy's generator has
    been drawn by then. *)
Theorem pull_index_error (w : World) (arm : Z) :
  (Z.of_nat (length (reward_probabilities (environment w))) <= arm \/
   arm < - Z.of_nat (length (reward_probabilities (environment w))))%Z ->
  pull arm w = (inl IndexError, tick_np w).
Proof.
  intros H. unfold pull, bind, get_environment, lift. simpl.
  destruct H as [H | H].
  - rewrite (py_getitem_out _ _ H). reflexivity.
  - rewrite (py_getitem_below _ _ H). reflexivity.
Qed.

Lemma pull_index_error_witness :
  pull 3 example_world = (inl IndexError, tick_np example_world) /\
  pull (-4) example_world = (inl IndexError, tick_np example_world).
Proof.
  split.
  - apply (pull_index_error example_world 3). left. simpl. lia.
  - apply (pull_index_error example_world (-4)). right. simpl. lia.
Defined.

(** X2. With samples in [[0, 1)], an arm whose probability is 0 or less
    never pays and an arm whose probability is 1 or more always pays its
    payout. *)
Theorem pull_certain (w : World) (arm : nat) (p r : Q) :
  source_ok (source w) ->
  reward_probabilities (environment w) !! arm = Some p ->
  rewards (environment w) !! arm = Some r ->
  (p <= 0 -> pull (Z.of_nat arm) w = (inr 0, tick_np w)) /\
  (1 <= p -> pull (Z.of_nat arm) w = (inr r, tick_np w)).
Proof.
  intros (Hu & _) Hp Hr. rewrite (pull_eq arm p r w Hp Hr).
  destruct (Hu (np_state w)) as [H0 H1]. split; intros H.
  - destruct (Qltb _ p) eqn:E; [| reflexivity].
    apply Qltb_lt in E. exfalso. apply (Qlt_irrefl 0).
    eapply Qle_lt_trans; [exact H0 |]. eapply Qlt_le_trans; eassumption.
  - destruct (Qltb _ p) eqn:E; [reflexivity |].
    apply Qltb_ge in E. exfalso. apply (Qlt_irrefl 1).
    eapply Qle_lt_trans; [exact H |]. eapply Qle_lt_trans; eassumption.
Qed.

Lemma pull_certain_witness :
  pull (Z.of_nat 2) example_world = (inr 0, tick_np example_world) /\
  pull (Z.of_nat 1) example_world = (inr 10, tick_np example_world).
Proof.
  split.
  - apply (pull_certain example_world 2 0 7 example_source_ok);
      [reflexivity | reflexivity | discriminate].
  - apply (pull_certain example_world 1 1 10 example_source_ok);
      [reflexivity | reflexivity | discriminate].
Defined.

(** X3. The payout is indexed only after the sample succeeded: when the
    list of payouts is too short for an arm that has a probability, [pull]
    returns 0 on a failed sample and raises [IndexError] on a successful
    one. *)
Theorem pull_short_rewards (w : World) (arm : nat) (p : Q) :
  reward_probabilities (environment w) !! arm = Some p ->
  (length (rewards (environment w)) <= arm)%nat ->
  pull (Z.of_nat arm) w =
  (if Qltb (np_random_random (source w) (np_state w)) p
   then inl IndexError else inr 0,
   tick_np w).
Proof.
  intros Hp Hr. unfold pull, bind, get_environment, lift. simpl.
  rewrite (py_getitem_nat _ _ _ Hp).
  destruct (Qltb _ p); [| reflexivity].
  rewrite py_getitem_out by lia. reflexivity.
Qed.

Lemma pull_short_rewards_witness :
  let w := mkWorld (SlotMachineEnvironment_init [1; 1 # 2] [5]) [5]
                   example_source 0 0 in
  pull (Z.of_nat 1) w = (inl IndexError, tick_np w) /\
  pull (Z.of_nat 1) (tick_np w) = (inr 0, tick_np (tick_np w)).
Proof.
  split.
  - apply (pull_short_rewards
             (mkWorld (SlotMachineEnvironment_init [1; 1 # 2] [5]) [5]
                      example_source 0 0) 1 (1 # 2));
      [reflexivity | simpl; lia].
  - apply (pull_short_rewards
             (tick_np (mkWorld (SlotMachineEnvironment_init [1; 1 # 2] [5])
                               [5] example_source 0 0)) 1 (1 # 2));
      [reflexivity | simpl; lia].
Defined.

(** ** The runs, with what each turn does to the local variables *)

(** [cum] holds, at every index, the average of the payouts [rs] up to
    that index. *)
Definition running_averages (cum rs : list Q) : Prop :=
  length cum = length rs /\
  forall i x, cum !! i = Some x ->
              x = py_sum (take (S i) rs) / Qnat (S i).

(** Every payout of [rs] is 0 or a payout of the environment. *)
Definition payouts_of (env : SlotMachineEnvironment) (rs : list Q) : Prop :=
  forall r, r ∈ rs -> r = 0 \/ r ∈ rewards env.

Lemma running_averages_nil : running_averages [] [].
Proof. split; [reflexivity |]. intros i x H. discriminate H. Qed.

Lemma running_averages_snoc (cum rs : list Q) (r : Q) :
  running_averages cum rs ->
  running_averages
    (cum ++ [py_sum (rs ++ [r]) / Qnat (length (rs ++ [r]))]) (rs ++ [r]).
Proof.
  intros [Hlen Hcum]. split; [rewrite !length_app, Hlen; reflexivity |].
  intros i x Hi.
  destruct (Nat.lt_ge_cases i (length cum)) as [Hlt | Hge].
  - rewrite lookup_app_l in Hi by exact Hlt.
    rewrite take_app_le by lia. apply Hcum. exact Hi.
  - rewrite lookup_app_r in Hi by exact Hge.
    destruct (i - length cum)%nat as [| n] eqn:E; simpl in Hi;
      [| destruct n; discriminate Hi].
    injection Hi as <-.
    assert (Hi : length (rs ++ [r]) = S i) by (rewrite length_app; simpl; lia).
    rewrite take_ge by lia. rewrite Hi. reflexivity.
Qed.

Lemma payouts_of_nil env : payouts_of env [].
Proof. intros r H. inversion H. Qed.

Lemma payouts_of_snoc env (rs : list Q) (r : Q) :
  payouts_of env rs -> (r = 0 \/ r ∈ rewards env) -> payouts_of env (rs ++ [r]).
Proof.
  intros Hrs Hr x Hx. apply elem_of_app in Hx as [Hx | Hx].
  - apply Hrs. exact Hx.
  - apply list_elem_of_singleton in Hx. subst x. exact Hr.
Qed.

Lemma pull_returns_payout (arm : nat) w :
  env_invariant (environment w) -> (arm < k_arms (environment w))%nat ->
  exists reward,
    pull (Z.of_nat arm) w = (inr reward, tick_np w) /\
    (reward = 0 \/ reward ∈ rewards (environment w)).
Proof.
  intros Hinv Hlt.
  destruct (env_invariant_lookup _ _ Hinv Hlt) as (p & r & Hp & Hr).
  eexists. split; [apply (pull_eq arm p r w Hp Hr) |].
  destruct (Qltb _ p); [right | left; reflexivity].
  eapply list_elem_of_lookup_2, Hr.
Qed.

(** *** RandomAgent *)

Lemma random_body_eq (l : RandomAgent.locals) (avg : Q) w :
  env_invariant (environment w) ->
  source_ok (source w) ->
  (1 <= k_arms (environment w))%nat ->
  length (RandomAgent.count_of_arms_pulled l) = k_arms (environment w) ->
  py_mean (global_rewards w) = inr avg ->
  exists arm reward c,
    RandomAgent.count_of_arms_pulled l !! arm = Some c /\
    (reward = 0 \/ reward ∈ rewards (environment w)) /\
    RandomAgent.body l w =
    (inr {| RandomAgent.count_of_arms_pulled :=
              <[arm := (c + 1)%nat]> (RandomAgent.count_of_arms_pulled l);
            RandomAgent.rewards_obtained :=
              RandomAgent.rewards_obtained l ++ [reward];
            RandomAgent.cumulative_rewards :=
              RandomAgent.cumulative_rewards l ++ [avg] |},
     tick_np (tick_np w)).
Proof.
  intros Hinv Hsrc Harms Hlen Havg.
  set (arm := np_random_choice (source w) (np_state w)
                               (k_arms (environment w))).
  assert (Harm : (arm < k_arms (environment w))%nat)
    by (apply Hsrc; lia).
  destruct (pull_returns_payout arm (tick_np w) Hinv Harm)
    as (reward & Hpull & Hpay).
  destruct (lookup_lt_is_Some_2 (RandomAgent.count_of_arms_pulled l) arm)
    as [c Hc]; [lia |].
  exists arm, reward, c. do 2 (split; [assumption |]).
  unfold RandomAgent.body, bind, get_environment.
  rewrite np_choice_eq by lia. fold arm. rewrite Hpull.
  unfold lift, get_global_rewards. rewrite (np_incr_eq _ _ _ Hc).
  change (global_rewards (tick_np (tick_np w))) with (global_rewards w).
  rewrite Havg. reflexivity.
Qed.

Section RandomAgentRunMore.

Variable w0 : World.
Variable avg : Q.
Hypothesis Hinv : env_invariant (environment w0).
Hypothesis Hsrc : source_ok (source w0).
Hypothesis Harms : (1 <= k_arms (environment w0))%nat.
Hypothesis Havg : py_mean (global_rewards w0) = inr avg.

(** After [i] turns: one count per arm, counts that add up to [i], [i]
    payouts of the environment, and two draws of numpy's generator per
    turn. *)
Definition random_run_inv (i : nat) (l : RandomAgent.locals) (w : World)
  : Prop :=
  same_setting w0 w /\
  length (RandomAgent.count_of_arms_pulled l) = k_arms (environment w0) /\
  sum_list (RandomAgent.count_of_arms_pulled l) = i /\
  length (RandomAgent.rewards_obtained l) = i /\
  payouts_of (environment w0) (RandomAgent.rewards_obtained l) /\
  np_state w = (np_state w0 + 2 * i)%nat /\
  py_state w = py_state w0.

Lemma random_run_body i l w :
  random_run_inv i l w ->
  returns (RandomAgent.body l) w (random_run_inv (S i)).
Proof.
  intros ((Henv & Hs & Hg) & Hlen & Hsum & Hrew & Hpay & Hnp & Hpy).
  destruct (random_body_eq l avg w) as (arm & reward & c & Hc & Hr & Hbody);
    try (rewrite ?Henv, ?Hs, ?Hg; assumption).
  eexists _, _. split; [exact Hbody |].
  repeat split; simpl; try assumption.
  - rewrite length_insert. exact Hlen.
  - rewrite (sum_list_incr _ _ _ Hc), Hsum. reflexivity.
  - rewrite length_app, Hrew. simpl. lia.
  - apply payouts_of_snoc; [exact Hpay |]. rewrite <- Henv. exact Hr.
  - lia.
Qed.

Lemma random_run_loop (self : RandomAgent.t) :
  returns (RandomAgent.loop self) w0 (random_run_inv (RandomAgent.steps self)).
Proof.
  unfold RandomAgent.loop. apply returns_bind, returns_ret.
  pose proof (returns_for_in random_run_inv (fun _ : nat => RandomAgent.body)
                (py_range (RandomAgent.steps self))) as H.
  unfold py_range in *. rewrite length_seq in H. apply H.
  - intros i x s w _. apply random_run_body.
  - repeat split; simpl.
    + apply length_replicate.
    + apply sum_list_zeros.
    + apply payouts_of_nil.
    + lia.
Qed.

End RandomAgentRunMore.

(** *** EpsilonGreedyAgent *)

Lemma greedy_body_eq (epsilon0 : Q) (l : EpsilonGreedyAgent.locals) w :
  env_invariant (environment w) ->
  source_ok (source w) ->
  (1 <= k_arms (environment w))%nat ->
  length (EpsilonGreedyAgent.q_values l) = k_arms (environment w) ->
  length (EpsilonGreedyAgent.rewards_obtained_per_arm l) =
    k_arms (environment w) ->
  length (EpsilonGreedyAgent.count_of_arms_pulled l) =
    k_arms (environment w) ->
  exists arm reward s c w1,
    EpsilonGreedyAgent.select epsilon0 (k_arms (environment w))
      (EpsilonGreedyAgent.q_values l) w = (inr arm, w1) /\
    (w1 = tick_np w \/ w1 = tick_np (tick_np w)) /\
    EpsilonGreedyAgent.rewards_obtained_per_arm l !! arm = Some s /\
    EpsilonGreedyAgent.count_of_arms_pulled l !! arm = Some c /\
    (arm < k_arms (environment w))%nat /\
    (reward = 0 \/ reward ∈ rewards (environment w)) /\
    EpsilonGreedyAgent.body epsilon0 (k_arms (environment w)) l w =
    (EpsilonGreedyAgent.update l arm reward, tick_np w1).
Proof.
  intros Hinv Hsrc Harms Hq Hsums Hcounts.
  destruct (greedy_select_returns w epsilon0 Hsrc Harms
              (EpsilonGreedyAgent.q_values l) w (same_setting_refl w) Hq)
    as (arm & w1 & Hsel & Harm & _).
  assert (Hw1 : w1 = tick_np w \/ w1 = tick_np (tick_np w)).
  { destruct (Qlt_le_dec (np_random_random (source w) (np_state w)) epsilon0)
      as [Hlt | Hge].
    - right. rewrite (select_explore _ _ _ _ Hlt), np_choice_eq in Hsel by lia.
      congruence.
    - left. rewrite select_exploit in Hsel by (apply Qle_not_lt; exact Hge).
      congruence. }
  assert (Henv1 : environment w1 = environment w)
    by (destruct Hw1 as [-> | ->]; reflexivity).
  destruct (pull_returns_payout arm w1) as (reward & Hpull & Hpay);
    [rewrite Henv1; exact Hinv | rewrite Henv1; exact Harm |].
  destruct (lookup_lt_is_Some_2
              (EpsilonGreedyAgent.rewards_obtained_per_arm l) arm)
    as [s Hs]; [lia |].
  destruct (lookup_lt_is_Some_2
              (EpsilonGreedyAgent.count_of_arms_pulled l) arm)
    as [c Hc]; [lia |].
  exists arm, reward, s, c, w1.
  do 5 (split; [assumption |]).
  split; [rewrite <- Henv1; exact Hpay |].
  unfold EpsilonGreedyAgent.body, bind. rewrite Hsel, Hpull. reflexivity.
Qed.

Section EpsilonGreedyRunMore.

Variable w0 : World.
Variable epsilon0 : Q.
Hypothesis Hinv : env_invariant (environment w0).
Hypothesis Hsrc : source_ok (source w0).
Hypothesis Harms : (1 <= k_arms (environment w0))%nat.

(** For every arm: never pulled, with sum and estimate 0, or pulled, with
    the estimate equal to the sum of its payouts divided by its count. *)
Definition estimates_are_means (l : EpsilonGreedyAgent.locals) : Prop :=
  forall arm c,
    EpsilonGreedyAgent.count_of_arms_pulled l !! arm = Some c ->
    exists s q,
      EpsilonGreedyAgent.rewards_obtained_per_arm l !! arm = Some s /\
      EpsilonGreedyAgent.q_values l !! arm = Some q /\
      ((c = O /\ s = 0 /\ q = 0) \/ ((0 < c)%nat /\ q = s / Qnat c)).

Definition greedy_run_inv (i : nat) (l : EpsilonGreedyAgent.locals)
    (w : World) : Prop :=
  same_setting w0 w /\
  length (EpsilonGreedyAgent.q_values l) = k_arms (environment w0) /\
  length (EpsilonGreedyAgent.rewards_obtained_per_arm l) =
    k_arms (environment w0) /\
  length (EpsilonGreedyAgent.count_of_arms_pulled l) =
    k_arms (environment w0) /\
  length (EpsilonGreedyAgent.rewards l) = i /\
  running_averages (EpsilonGreedyAgent.cumulative_rewards l)
    (EpsilonGreedyAgent.rewards l) /\
  payouts_of (environment w0) (EpsilonGreedyAgent.rewards l) /\
  estimates_are_means l /\
  (np_state w0 + 2 * i <= np_state w <= np_state w0 + 3 * i)%nat /\
  py_state w = py_state w0.

Lemma greedy_run_body i l w :
  greedy_run_inv i l w ->
  returns (EpsilonGreedyAgent.body epsilon0 (k_arms (environment w0)) l) w
    (greedy_run_inv (S i)).
Proof.
  intros ((Henv & Hs & Hg) & Hq & Hsums & Hcounts & Hrew & Hrun & Hpay &
          Hmeans & Hnp & Hpy).
  destruct (greedy_body_eq epsilon0 l w)
    as (arm & reward & s & c & w1 & _ & Hw1 & Hs' & Hc & Harm & Hr & Hbody);
    try (rewrite ?Henv, ?Hs; assumption).
  rewrite Henv in Hbody, Hr, Harm.
  rewrite (update_eq l arm reward s c Hs' Hc) in Hbody by lia.
  eexists _, _. split; [exact Hbody |].
  assert (Hset : same_setting w0 (tick_np w1))
    by (destruct Hw1 as [-> | ->]; repeat split; assumption).
  assert (Hticks : (np_state w0 + 2 * S i <= np_state (tick_np w1)
                    <= np_state w0 + 3 * S i)%nat /\
                   py_state (tick_np w1) = py_state w0)
    by (destruct Hw1 as [-> | ->]; simpl; lia).
  destruct Hticks as [Hnp' Hpy'].
  split; [exact Hset |]. simpl.
  do 3 (split; [rewrite length_insert; assumption |]).
  split; [rewrite length_app, Hrew; simpl; lia |].
  split; [apply running_averages_snoc; exact Hrun |].
  split; [apply payouts_of_snoc; assumption |].
  split; [| split; assumption].
  intros arm' c' Hc'. simpl in *.
  destruct (decide (arm' = arm)) as [-> | Hne].
  - rewrite list_lookup_insert_eq in Hc' by (eapply lookup_lt_Some, Hc).
    injection Hc' as <-.
    exists (s + reward), ((s + reward) / Qnat (c + 1)).
    rewrite !list_lookup_insert_eq by lia.
    repeat split. right. split; [lia | reflexivity].
  - rewrite list_lookup_insert_ne in Hc' by congruence.
    rewrite !list_lookup_insert_ne by congruence.
    apply Hmeans. exact Hc'.
Qed.

Lemma greedy_run_loop (n : nat) :
  returns (EpsilonGreedyAgent.loop (EpsilonGreedyAgent.new n epsilon0)) w0
    (greedy_run_inv n).
Proof.
  unfold EpsilonGreedyAgent.loop. apply returns_bind, returns_ret.
  cbn [EpsilonGreedyAgent.steps EpsilonGreedyAgent.epsilon].
  pose proof (returns_for_in greedy_run_inv
                (fun _ : nat =>
                   EpsilonGreedyAgent.body epsilon0 (k_arms (environment w0)))
                (py_range n)) as H.
  unfold py_range in *. rewrite length_seq in H. apply H.
  - intros i x s w _. apply greedy_run_body.
  - split; [apply same_setting_refl |]. simpl.
    do 3 (split; [apply length_replicate |]).
    split; [reflexivity |].
    split; [apply running_averages_nil |].
    split; [apply payouts_of_nil |].
    split; [| lia].
    intros arm c Hc. simpl in *. unfold np_zeros_nat, np_zeros in *.
    apply lookup_replicate in Hc as [-> Hlt].
    exists 0, 0. rewrite !lookup_replicate_2 by exact Hlt.
    do 2 (split; [reflexivity |]). left. repeat split.
Qed.

End EpsilonGreedyRunMore.

(** *** ThompsonSamplingAgent *)

Section ThompsonRunMore.

Variable w0 : World.
Hypothesis Hinv : env_invariant (environment w0).
Hypothesis Hsrc : source_ok (source w0).
Hypothesis Harms : (1 <= k_arms (environment w0))%nat.

(** After [i] turns: the successes are as many as the payouts above 90
    and the failures as many as the others; numpy's generator gave one
    draw per turn and the [random] module one per arm and turn. *)
Definition thompson_run_inv (i : nat) (l : ThompsonSamplingAgent.locals)
    (w : World) : Prop :=
  same_setting w0 w /\
  length (ThompsonSamplingAgent.count_of_arms_pulled l) =
    k_arms (environment w0) /\
  length (ThompsonSamplingAgent.rewards_obtained l) =
    k_arms (environment w0) /\
  length (ThompsonSamplingAgent.failures l) = k_arms (environment w0) /\
  length (ThompsonSamplingAgent.total_rewards l) = i /\
  running_averages (ThompsonSamplingAgent.cumulative_rewards l)
    (ThompsonSamplingAgent.total_rewards l) /\
  payouts_of (environment w0) (ThompsonSamplingAgent.total_rewards l) /\
  sum_list (ThompsonSamplingAgent.rewards_obtained l) =
    length (List.filter (Qltb 90) (ThompsonSamplingAgent.total_rewards l)) /\
  sum_list (ThompsonSamplingAgent.failures l) =
    length (List.filter (fun r => negb (Qltb 90 r))
              (ThompsonSamplingAgent.total_rewards l)) /\
  np_state w = (np_state w0 + i)%nat /\
  py_state w = (py_state w0 + i * k_arms (environment w0))%nat.

Lemma thompson_run_body i l w :
  thompson_run_inv i l w ->
  returns (ThompsonSamplingAgent.body (k_arms (environment w0)) l) w
    (thompson_run_inv (S i)).
Proof.
  intros ((Henv & Hs & Hg) & Hcounts & Halpha & Hbeta & Htot & Hrun & Hpay &
          Hsucc & Hfail & Hnp & Hpy).
  destruct (thompson_body_eq (k_arms (environment w0)) l w)
    as (reward & c & s & f & Hmax & Hc & Hs' & Hf & Hpull & Hbody);
    try assumption; try (rewrite ?Henv, ?Hs; assumption);
    try (rewrite Henv; reflexivity).
  set (arm := snd (scan_max _ _ _)) in *.
  assert (Harm : (arm < k_arms (environment w0))%nat)
    by (apply lookup_lt_Some in Hc; lia).
  assert (Hr : reward = 0 \/ reward ∈ rewards (environment w0)).
  { destruct (pull_returns_payout arm
                (tick_py (k_arms (environment w0)) w))
      as (reward' & Hpull' & Hpay'); simpl; try (rewrite Henv; assumption).
    rewrite Hpull in Hpull'. injection Hpull' as ->.
    simpl in Hpay'. rewrite Henv in Hpay'. exact Hpay'. }
  assert (Hcommon : forall l',
    ThompsonSamplingAgent.total_rewards l' =
      ThompsonSamplingAgent.total_rewards l ++ [reward] ->
    ThompsonSamplingAgent.cumulative_rewards l' =
      ThompsonSamplingAgent.cumulative_rewards l ++
      [py_sum (ThompsonSamplingAgent.total_rewards l ++ [reward]) /
       Qnat (length (ThompsonSamplingAgent.total_rewards l ++ [reward]))] ->
    length (ThompsonSamplingAgent.total_rewards l') = S i /\
    running_averages (ThompsonSamplingAgent.cumulative_rewards l')
      (ThompsonSamplingAgent.total_rewards l') /\
    payouts_of (environment w0) (ThompsonSamplingAgent.total_rewards l')).
  { intros l' -> ->. split; [rewrite length_app, Htot; simpl; lia |].
    split; [apply running_averages_snoc; exact Hrun |].
    apply payouts_of_snoc; assumption. }
  destruct (Qltb 90 reward) eqn:E.
  - assert (Hlt : 90 < reward) by (apply Qltb_lt; exact E).
    eexists _, _. split;
      [rewrite Hbody, (thompson_update_success _ _ _ s _ Hlt Hs');
       reflexivity |].
    split; [repeat split; assumption |]. simpl.
    do 2 (split; [rewrite length_insert; assumption |]).
    split; [assumption |].
    destruct (Hcommon (ThompsonSamplingAgent.mkLocals [] [] [] _ _)
                eq_refl eq_refl) as (H1 & H2 & H3).
    simpl in H1, H2, H3. do 3 (split; [assumption |]).
    rewrite !List.filter_app, !length_app. simpl. rewrite E. simpl.
    rewrite (sum_list_incr _ _ _ Hs'), Hsucc, Hfail. lia.
  - assert (Hge : ~ 90 < reward)
      by (intros Hlt; apply Qltb_lt in Hlt; congruence).
    eexists _, _. split;
      [rewrite Hbody, (thompson_update_failure _ _ _ f _ Hge Hf);
       reflexivity |].
    split; [repeat split; assumption |]. simpl.
    split; [rewrite length_insert; assumption |].
    split; [assumption |].
    split; [rewrite length_insert; assumption |].
    destruct (Hcommon (ThompsonSamplingAgent.mkLocals [] [] [] _ _)
                eq_refl eq_refl) as (H1 & H2 & H3).
    simpl in H1, H2, H3. do 3 (split; [assumption |]).
    rewrite !List.filter_app, !length_app. simpl. rewrite E. simpl.
    rewrite (sum_list_incr _ _ _ Hf), Hsucc, Hfail. lia.
Qed.

Lemma thompson_run_loop (self : ThompsonSamplingAgent.t) :
  returns (ThompsonSamplingAgent.loop self) w0
    (thompson_run_inv (ThompsonSamplingAgent.steps self)).
Proof.
  unfold ThompsonSamplingAgent.loop. apply returns_bind, returns_ret.
  pose proof (returns_for_in thompson_run_inv
                (fun _ : nat =>
                   ThompsonSamplingAgent.body (k_arms (environment w0)))
                (py_range (ThompsonSamplingAgent.steps self))) as H.
  unfold py_range in *. rewrite length_seq in H. apply H.
  - intros i x s w _. apply thompson_run_body.
  - split; [apply same_setting_refl |]. simpl.
    do 3 (split; [apply length_replicate |]).
    split; [reflexivity |].
    split; [apply running_averages_nil |].
    split; [apply payouts_of_nil |].
    rewrite !sum_list_zeros. repeat split; lia.
Qed.

End ThompsonRunMore.

(** ** What a run returns *)

Lemma py_mean_nonempty (g : list Q) :
  g <> [] -> exists avg, py_mean g = inr avg.
Proof. destruct g; [congruence | intros _; eexists; reflexivity]. Qed.

Lemma sum_list_zero (a : list nat) :
  sum_list a = O -> a = np_zeros_nat (length a).
Proof.
  induction a as [| x t IH]; simpl; intros H; [reflexivity |].
  assert (x = O) by lia. subst x. rewrite IH at 1 by lia. reflexivity.
Qed.

Lemma filter_none (f : Q -> bool) (l : list Q) :
  (forall r, r ∈ l -> f r = false) -> List.filter f l = [].
Proof.
  induction l as [| x t IH]; intros H; simpl; [reflexivity |].
  rewrite (H x) by (left). apply IH. intros r Hr. apply H. right. exact Hr.
Qed.

(** X4. A run of [RandomAgent] of [n] steps over a well-formed
    environment returns one count per arm, counts that add up to [n], and
    [n] payouts. *)
Theorem random_agent_counts (self : RandomAgent.t) (w : World) :
  env_invariant (environment w) ->
  source_ok (source w) ->
  (1 <= k_arms (environment w))%nat ->
  global_rewards w <> [] ->
  exists counts obtained cumulative w',
    RandomAgent.step self w = (inr (counts, obtained, cumulative), w') /\
    length counts = k_arms (environment w) /\
    sum_list counts = RandomAgent.steps self /\
    length obtained = RandomAgent.steps self.
Proof.
  intros Hinv Hsrc Harms Hg.
  destruct (py_mean_nonempty _ Hg) as [avg Havg].
  destruct (random_run_loop w avg Hinv Hsrc Harms Havg self)
    as (l & w' & Hloop & _ & Hlen & Hsum & Hrew & _).
  eexists _, _, _, w'. unfold RandomAgent.step, bind. rewrite Hloop.
  split; [reflexivity |]. auto.
Qed.

Lemma random_agent_counts_witness :
  exists counts obtained cumulative w',
    RandomAgent.step (RandomAgent.new 7) example_world =
      (inr (counts, obtained, cumulative), w') /\
    length counts = 3%nat /\ sum_list counts = 7%nat /\
    length obtained = 7%nat.
Proof.
  apply (random_agent_counts (RandomAgent.new 7) example_world).
  - split; reflexivity.
  - exact example_source_ok.
  - simpl; lia.
  - discriminate.
Defined.

(** X7. The series that [EpsilonGreedyAgent] returns is the running
    average of the payouts it returns: entry [i] is the sum of the first
    [i + 1] payouts divided by [i + 1].  The series of
    [ThompsonSamplingAgent] is the same function of its list
    [total_rewards]. *)
Theorem cumulative_is_running_average (w : World) (n : nat) (epsilon0 : Q) :
  env_invariant (environment w) ->
  source_ok (source w) ->
  (1 <= k_arms (environment w))%nat ->
  (exists counts obtained cumulative w',
      EpsilonGreedyAgent.step (EpsilonGreedyAgent.new n epsilon0) w =
        (inr (counts, obtained, cumulative), w') /\
      length cumulative = n /\ length obtained = n /\
      forall i x, cumulative !! i = Some x ->
                  x = py_sum (take (S i) obtained) / Qnat (S i)) /\
  (exists l successes cumulative w',
      ThompsonSamplingAgent.loop (ThompsonSamplingAgent.new n) w =
        (inr l, w') /\
      ThompsonSamplingAgent.step (ThompsonSamplingAgent.new n) w =
        (inr (ThompsonSamplingAgent.count_of_arms_pulled l, successes,
              cumulative), w') /\
      length cumulative = n /\
      forall i x, cumulative !! i = Some x ->
                  x = py_sum (take (S i) (ThompsonSamplingAgent.total_rewards l))
                      / Qnat (S i)).
Proof.
  intros Hinv Hsrc Harms. split.
  - destruct (greedy_run_loop w epsilon0 Hinv Hsrc Harms n)
      as (l & w' & Hloop & _ & _ & _ & _ & Hlen & [Hcl Hrun] & _).
    eexists _, _, _, w'. unfold EpsilonGreedyAgent.step, bind.
    rewrite Hloop. split; [reflexivity |].
    split; [congruence |]. split; [exact Hlen | exact Hrun].
  - destruct (thompson_run_loop w Hinv Hsrc Harms
                (ThompsonSamplingAgent.new n))
      as (l & w' & Hloop & _ & _ & _ & _ & Hlen & [Hcl Hrun] & _).
    eexists l, _, _, w'. split; [exact Hloop |].
    unfold ThompsonSamplingAgent.step, bind. rewrite Hloop.
    split; [reflexivity |]. split; [simpl in *; congruence | exact Hrun].
Qed.

Lemma cumulative_is_running_average_witness :
  exists counts obtained cumulative w',
    EpsilonGreedyAgent.step (EpsilonGreedyAgent.new 6 (1 # 2))
      example_world = (inr (counts, obtained, cumulative), w') /\
    forall i x, cumulative !! i = Some x ->
                x = py_sum (take (S i) obtained) / Qnat (S i).
Proof.
  destruct (cumulative_is_running_average example_world 6 (1 # 2))
    as [(counts & obtained & cumulative & w' & Hstep & _ & _ & Hrun) _].
  - split; reflexivity.
  - exact example_source_ok.
  - simpl; lia.
  - exists counts, obtained, cumulative, w'. auto.
Defined.

(** X8. When the loop of [EpsilonGreedyAgent] ends, the estimate of every
    arm that was pulled is the sum of the payouts of that arm divided by
    its count, and an arm that was never pulled still has sum and
    estimate 0. *)
Theorem q_values_are_means (w : World) (n : nat) (epsilon0 : Q) :
  env_invariant (environment w) ->
  source_ok (source w) ->
  (1 <= k_arms (environment w))%nat ->
  exists l w',
    EpsilonGreedyAgent.loop (EpsilonGreedyAgent.new n epsilon0) w =
      (inr l, w') /\
    forall arm c,
      EpsilonGreedyAgent.count_of_arms_pulled l !! arm = Some c ->
      exists s q,
        EpsilonGreedyAgent.rewards_obtained_per_arm l !! arm = Some s /\
        EpsilonGreedyAgent.q_values l !! arm = Some q /\
        ((c = O /\ s = 0 /\ q = 0) \/ ((0 < c)%nat /\ q = s / Qnat c)).
Proof.
  intros Hinv Hsrc Harms.
  destruct (greedy_run_loop w epsilon0 Hinv Hsrc Harms n)
    as (l & w' & Hloop & _ & _ & _ & _ & _ & _ & _ & Hmeans & _).
  exists l, w'. split; [exact Hloop | exact Hmeans].
Qed.

Lemma q_values_are_means_witness :
  exists l w',
    EpsilonGreedyAgent.loop (EpsilonGreedyAgent.new 6 (1 # 2))
      example_world = (inr l, w') /\
    forall arm c,
      EpsilonGreedyAgent.count_of_arms_pulled l !! arm = Some c ->
      exists s q,
        EpsilonGreedyAgent.rewards_obtained_per_arm l !! arm = Some s /\
        EpsilonGreedyAgent.q_values l !! arm = Some q /\
        ((c = O /\ s = 0 /\ q = 0) \/ ((0 < c)%nat /\ q = s / Qnat c)).
Proof.
  apply (q_values_are_means example_world 6 (1 # 2)).
  - split; reflexivity.
  - exact example_source_ok.
  - simpl; lia.
Defined.

(** X9. Every payout that a run obtains is 0 or one of the payouts of the
    environment: the entries of the second component of [RandomAgent] and
    of [EpsilonGreedyAgent], and the entries of [total_rewards] of
    [ThompsonSamplingAgent]. *)
Theorem obtained_rewards_are_payouts (w : World) (n : nat) (epsilon0 : Q) :
  env_invariant (environment w) ->
  source_ok (source w) ->
  (1 <= k_arms (environment w))%nat ->
  global_rewards w <> [] ->
  (exists counts obtained cumulative w',
      RandomAgent.step (RandomAgent.new n) w =
        (inr (counts, obtained, cumulative), w') /\
      forall r, r ∈ obtained -> r = 0 \/ r ∈ rewards (environment w)) /\
  (exists counts obtained cumulative w',
      EpsilonGreedyAgent.step (EpsilonGreedyAgent.new n epsilon0) w =
        (inr (counts, obtained, cumulative), w') /\
      forall r, r ∈ obtained -> r = 0 \/ r ∈ rewards (environment w)) /\
  (exists l w',
      ThompsonSamplingAgent.loop (ThompsonSamplingAgent.new n) w =
        (inr l, w') /\
      forall r, r ∈ ThompsonSamplingAgent.total_rewards l ->
                r = 0 \/ r ∈ rewards (environment w)).
Proof.
  intros Hinv Hsrc Harms Hg. split; [| split].
  - destruct (py_mean_nonempty _ Hg) as [avg Havg].
    destruct (random_run_loop w avg Hinv Hsrc Harms Havg (RandomAgent.new n))
      as (l & w' & Hloop & _ & _ & _ & _ & Hpay & _).
    eexists _, _, _, w'. unfold RandomAgent.step, bind. rewrite Hloop.
    split; [reflexivity | exact Hpay].
  - destruct (greedy_run_loop w epsilon0 Hinv Hsrc Harms n)
      as (l & w' & Hloop & _ & _ & _ & _ & _ & _ & Hpay & _).
    eexists _, _, _, w'. unfold EpsilonGreedyAgent.step, bind.
    rewrite Hloop. split; [reflexivity | exact Hpay].
  - destruct (thompson_run_loop w Hinv Hsrc Harms
                (ThompsonSamplingAgent.new n))
      as (l & w' & Hloop & _ & _ & _ & _ & _ & _ & Hpay & _).
    exists l, w'. split; [exact Hloop | exact Hpay].
Qed.

Lemma obtained_rewards_are_payouts_witness :
  exists counts obtained cumulative w',
    RandomAgent.step (RandomAgent.new 6) example_world =
      (inr (counts, obtained, cumulative), w') /\
    forall r, r ∈ obtained ->
              r = 0 \/ r ∈ rewards (environment example_world).
Proof.
  destruct (obtained_rewards_are_payouts example_world 6 (1 # 2)) as [H _].
  - split; reflexivity.
  - exact example_source_ok.
  - simpl; lia.
  - discriminate.
  - exact H.
Defined.

(** X10. In a run of [ThompsonSamplingAgent] the successes over all arms
    are as many as the payouts strictly above 90 and the failures as many
    as the other payouts; the array of successes is the second component
    that is returned. *)
Theorem thompson_successes_count (w : World) (n : nat) :
  env_invariant (environment w) ->
  source_ok (source w) ->
  (1 <= k_arms (environment w))%nat ->
  exists l counts cumulative w',
    ThompsonSamplingAgent.loop (ThompsonSamplingAgent.new n) w =
      (inr l, w') /\
    ThompsonSamplingAgent.step (ThompsonSamplingAgent.new n) w =
      (inr (counts, ThompsonSamplingAgent.rewards_obtained l, cumulative),
       w') /\
    length (ThompsonSamplingAgent.total_rewards l) = n /\
    sum_list (ThompsonSamplingAgent.rewards_obtained l) =
      length (List.filter (Qltb 90) (ThompsonSamplingAgent.total_rewards l)) /\
    sum_list (ThompsonSamplingAgent.failures l) =
      length (List.filter (fun r => negb (Qltb 90 r))
                (ThompsonSamplingAgent.total_rewards l)).
Proof.
  intros Hinv Hsrc Harms.
  destruct (thompson_run_loop w Hinv Hsrc Harms (ThompsonSamplingAgent.new n))
    as (l & w' & Hloop & _ & _ & _ & _ & Hlen & _ & _ & Hsucc & Hfail & _).
  eexists l, _, _, w'. split; [exact Hloop |].
  unfold ThompsonSamplingAgent.step, bind. rewrite Hloop.
  split; [reflexivity |]. auto.
Qed.

Lemma thompson_successes_count_witness :
  exists l w',
    ThompsonSamplingAgent.loop (ThompsonSamplingAgent.new 6) example_world =
      (inr l, w') /\
    sum_list (ThompsonSamplingAgent.rewards_obtained l) =
      length (List.filter (Qltb 90) (ThompsonSamplingAgent.total_rewards l)).
Proof.
  destruct (thompson_successes_count example_world 6)
    as (l & counts & cumulative & w' & Hloop & _ & _ & Hsucc & _).
  - split; reflexivity.
  - exact example_source_ok.
  - simpl; lia.
  - exists l, w'. auto.
Defined.

(** X11. Over an environment whose payouts are all 90 or less,
    [ThompsonSamplingAgent] never records a success: the second component
    it returns is all zeros, whatever the probabilities and the draws. *)
Theorem thompson_no_success_below_threshold (w : World) (n : nat) :
  env_invariant (environment w) ->
  source_ok (source w) ->
  (1 <= k_arms (environment w))%nat ->
  (forall r, r ∈ rewards (environment w) -> r <= 90) ->
  exists counts cumulative w',
    ThompsonSamplingAgent.step (ThompsonSamplingAgent.new n) w =
    (inr (counts, np_zeros_nat (k_arms (environment w)), cumulative), w').
Proof.
  intros Hinv Hsrc Harms Hlow.
  destruct (thompson_run_loop w Hinv Hsrc Harms (ThompsonSamplingAgent.new n))
    as (l & w' & Hloop & _ & _ & Hlen & _ & _ & _ & Hpay & Hsucc & _).
  eexists _, _, w'. unfold ThompsonSamplingAgent.step, bind. rewrite Hloop.
  unfold ret. rewrite <- Hlen.
  rewrite <- (sum_list_zero (ThompsonSamplingAgent.rewards_obtained l));
    [reflexivity |].
  rewrite Hsucc, filter_none; [reflexivity |].
  intros r Hr. apply Qltb_ge. destruct (Hpay r Hr) as [-> | Hin].
  - discriminate.
  - apply Hlow. exact Hin.
Qed.

Lemma thompson_no_success_below_threshold_witness :
  exists counts cumulative w',
    ThompsonSamplingAgent.step (ThompsonSamplingAgent.new 6)
      (mkWorld (SlotMachineEnvironment_init [1; 1 # 2] [90; 40]) []
               example_source 0 0) =
    (inr (counts, [O; O], cumulative), w').
Proof.
  apply (thompson_no_success_below_threshold
           (mkWorld (SlotMachineEnvironment_init [1; 1 # 2] [90; 40]) []
                    example_source 0 0) 6).
  - split; reflexivity.
  - exact example_source_ok.
  - simpl; lia.
  - simpl. intros r Hr.
    apply list_elem_of_In in Hr. simpl in Hr.
    destruct Hr as [<- | [<- | []]]; discriminate.
Defined.

(** X12. What a run of [n] steps takes from the generators: [RandomAgent]
    takes [2 n] draws of numpy's generator, [EpsilonGreedyAgent] between
    [2 n] and [3 n], and neither touches the generator of the [random]
    module; [ThompsonSamplingAgent] takes [n] draws of numpy's generator
    and [n * k_arms] draws of the [random] module. *)
Theorem generator_positions (w : World) (n : nat) (epsilon0 : Q) :
  env_invariant (environment w) ->
  source_ok (source w) ->
  (1 <= k_arms (environment w))%nat ->
  global_rewards w <> [] ->
  (exists r w', RandomAgent.step (RandomAgent.new n) w = (inr r, w') /\
                np_state w' = (np_state w + 2 * n)%nat /\
                py_state w' = py_state w) /\
  (exists r w',
      EpsilonGreedyAgent.step (EpsilonGreedyAgent.new n epsilon0) w =
        (inr r, w') /\
      (np_state w + 2 * n <= np_state w' <= np_state w + 3 * n)%nat /\
      py_state w' = py_state w) /\
  (exists r w',
      ThompsonSamplingAgent.step (ThompsonSamplingAgent.new n) w =
        (inr r, w') /\
      np_state w' = (np_state w + n)%nat /\
      py_state w' = (py_state w + n * k_arms (environment w))%nat).
Proof.
  intros Hinv Hsrc Harms Hg. split; [| split].
  - destruct (py_mean_nonempty _ Hg) as [avg Havg].
    destruct (random_run_loop w avg Hinv Hsrc Harms Havg (RandomAgent.new n))
      as (l & w' & Hloop & _ & _ & _ & _ & _ & Hnp & Hpy).
    eexists _, w'. unfold RandomAgent.step, bind. rewrite Hloop.
    split; [reflexivity |]. auto.
  - destruct (greedy_run_loop w epsilon0 Hinv Hsrc Harms n)
      as (l & w' & Hloop & _ & _ & _ & _ & _ & _ & _ & _ & Hnp & Hpy).
    eexists _, w'. unfold EpsilonGreedyAgent.step, bind. rewrite Hloop.
    split; [reflexivity |]. auto.
  - destruct (thompson_run_loop w Hinv Hsrc Harms
                (ThompsonSamplingAgent.new n))
      as (l & w' & Hloop & _ & _ & _ & _ & _ & _ & _ & _ & _ & Hnp & Hpy).
    eexists _, w'. unfold ThompsonSamplingAgent.step, bind. rewrite Hloop.
    split; [reflexivity |]. auto.
Qed.

Lemma generator_positions_witness :
  exists r w',
    ThompsonSamplingAgent.step (ThompsonSamplingAgent.new 6) example_world =
      (inr r, w') /\
    np_state w' = (np_state example_world + 6)%nat /\
    py_state w' =
      (py_state example_world + 6 * k_arms (environment example_world))%nat.
Proof.
  destruct (generator_positions example_world 6 (1 # 2)) as (_ & _ & H).
  - split; reflexivity.
  - exact example_source_ok.
  - simpl; lia.
  - discriminate.
  - exact H.
Defined.

(** ** Runs that raise *)

Lemma for_in_raise {A S} (x : A) (t : list A) (body : A -> S -> M S)
    (s : S) (e : Exn) w w' :
  body x s w = (inl e, w') -> for_in (x :: t) body s w = (inl e, w').
Proof. intros H. simpl. unfold bind. rewrite H. reflexivity. Qed.

(** X5. When the module-level list [rewards] is empty, a run of
    [RandomAgent] of at least one step over a well-formed environment
    raises [ZeroDivisionError] in its first turn, after the draw of the
    arm and the pull. *)
Theorem random_agent_empty_global (w : World) (n : nat) :
  env_invariant (environment w) ->
  source_ok (source w) ->
  (1 <= k_arms (environment w))%nat ->
  global_rewards w = [] ->
  RandomAgent.step (RandomAgent.new (S n)) w =
  (inl ZeroDivisionError, tick_np (tick_np w)).
Proof.
  intros Hinv Hsrc Harms Hg.
  set (arm := np_random_choice (source w) (np_state w)
                               (k_arms (environment w))).
  assert (Harm : (arm < k_arms (environment w))%nat) by (apply Hsrc; lia).
  destruct (pull_returns arm (tick_np w) Hinv Harm) as [reward Hpull].
  destruct (lookup_lt_is_Some_2 (np_zeros_nat (k_arms (environment w))) arm)
    as [c Hc]; [unfold np_zeros_nat; rewrite length_replicate; exact Harm |].
  unfold RandomAgent.step, RandomAgent.loop, bind at 1 2, get_environment.
  cbn [RandomAgent.steps py_range seq].
  erewrite for_in_raise; [reflexivity |].
  unfold RandomAgent.body, bind, get_environment.
  rewrite np_choice_eq by lia. fold arm. rewrite Hpull.
  unfold lift, get_global_rewards.
  cbn [RandomAgent.count_of_arms_pulled]. rewrite (np_incr_eq _ _ _ Hc).
  change (global_rewards (tick_np (tick_np w))) with (global_rewards w).
  rewrite Hg. reflexivity.
Qed.

Lemma random_agent_empty_global_witness :
  RandomAgent.step (RandomAgent.new 3) other_world =
  (inl ZeroDivisionError, tick_np (tick_np other_world)).
Proof.
  apply (random_agent_empty_global other_world 2).
  - split; reflexivity.
  - repeat split; simpl; try discriminate. intros t k Hk. lia.
  - simpl; lia.
  - reflexivity.
Defined.

(** X6. Over an environment without arms a run of at least one step
    raises in its first turn: [RandomAgent] and [EpsilonGreedyAgent] raise
    [ValueError] (from [np.random.choice(0)], or from [np.argmax] of an
    empty array), and [ThompsonSamplingAgent] raises [IndexError] at the
    count of arm 0. *)
Theorem agents_without_arms (w : World) (n : nat) (epsilon0 : Q) :
  k_arms (environment w) = O ->
  RandomAgent.step (RandomAgent.new (S n)) w = (inl ValueError, w) /\
  EpsilonGreedyAgent.step (EpsilonGreedyAgent.new (S n) epsilon0) w =
    (inl ValueError, tick_np w) /\
  ThompsonSamplingAgent.step (ThompsonSamplingAgent.new (S n)) w =
    (inl IndexError, w).
Proof.
  intros Hk. split; [| split].
  - unfold RandomAgent.step, RandomAgent.loop, bind at 1 2, get_environment.
    cbn [RandomAgent.steps py_range seq].
    erewrite for_in_raise; [reflexivity |].
    unfold RandomAgent.body, bind, get_environment. rewrite Hk. reflexivity.
  - unfold EpsilonGreedyAgent.step, EpsilonGreedyAgent.loop, bind at 1 2,
      get_environment.
    cbn [EpsilonGreedyAgent.steps EpsilonGreedyAgent.epsilon py_range seq].
    erewrite for_in_raise; [reflexivity |].
    unfold EpsilonGreedyAgent.body, EpsilonGreedyAgent.select, bind.
    rewrite np_random_eq, Hk.
    destruct (Qltb _ epsilon0); reflexivity.
  - unfold ThompsonSamplingAgent.step, ThompsonSamplingAgent.loop,
      bind at 1 2, get_environment.
    cbn [ThompsonSamplingAgent.steps py_range seq].
    erewrite for_in_raise; [reflexivity |].
    rewrite Hk. reflexivity.
Qed.

Lemma agents_without_arms_witness :
  let w := mkWorld (SlotMachineEnvironment_init [] []) [] example_source 0 0 in
  RandomAgent.step (RandomAgent.new 1) w = (inl ValueError, w) /\
  EpsilonGreedyAgent.step (EpsilonGreedyAgent.new 1 (1 # 2)) w =
    (inl ValueError, tick_np w) /\
  ThompsonSamplingAgent.step (ThompsonSamplingAgent.new 1) w =
    (inl IndexError, w).
Proof.
  apply (agents_without_arms
           (mkWorld (SlotMachineEnvironment_init [] []) [] example_source 0 0)
           0 (1 # 2)).
  reflexivity.
Defined.

(** ** The two ends of [epsilon] *)



Lemma scan_max_keep (l : list Q) (best : Q * nat) (i : nat) :
  (forall y, y ∈ l -> y <= fst best) -> scan_max best i l = best.
Proof.
  revert i. induction l as [| x t IH]; intros i H; simpl; [reflexivity |].
  assert (E : Qltb (fst best) x = false) by (apply Qltb_ge, H; left).
  rewrite E. apply IH. intros y Hy. apply H. right. exact Hy.
Qed.

Lemma Qnat_nonneg (n : nat) : 0 <= Qnat n.
Proof.
  unfold Qnat. change 0 with (inject_Z 0). rewrite <- Zle_Qle. lia.
Qed.

Lemma Qdiv_nonneg (a b : Q) : 0 <= a -> 0 <= b -> 0 <= a / b.
Proof.
  intros Ha Hb. unfold Qdiv. apply Qmult_le_0_compat; [exact Ha |].
  apply Qinv_le_0_compat. exact Hb.
Qed.

Lemma Qplus_nonneg (a b : Q) : 0 <= a -> 0 <= b -> 0 <= a + b.
Proof. intros Ha Hb. apply (Qplus_le_compat 0 a 0 b Ha Hb). Qed.

Section GreedyWithoutExploration.

Variable w0 : World.
Variable epsilon0 : Q.
Variable k' : nat.
Hypothesis Hinv : env_invariant (environment w0).
Hypothesis Hsrc : source_ok (source w0).
Hypothesis Harms : k_arms (environment w0) = S k'.
Hypothesis Heps : epsilon0 <= 0.
Hypothesis Hpos : forall r, r ∈ rewards (environment w0) -> 0 <= r.

(** After [i] turns without exploration: only arm 0 has been pulled; its
    sum and estimate are not negative and those of the other arms are
    still 0. *)
Definition first_arm_inv (i : nat) (l : EpsilonGreedyAgent.locals)
    (w : World) : Prop :=
  same_setting w0 w /\
  (exists q0, EpsilonGreedyAgent.q_values l = q0 :: np_zeros k' /\
              0 <= q0) /\
  (exists s0, EpsilonGreedyAgent.rewards_obtained_per_arm l =
                s0 :: np_zeros k' /\ 0 <= s0) /\
  EpsilonGreedyAgent.count_of_arms_pulled l = i :: np_zeros_nat k' /\
  np_state w = (np_state w0 + 2 * i)%nat.

Lemma first_arm_body i l w :
  first_arm_inv i l w ->
  returns (EpsilonGreedyAgent.body epsilon0 (k_arms (environment w0)) l) w
    (first_arm_inv (S i)).
Proof.
  intros ((Henv & Hs & Hg) & (q0 & Hq & Hq0) & (s0 & Hsum & Hs0) & Hcount &
          Hnp).
  assert (Hsel : EpsilonGreedyAgent.select epsilon0 (k_arms (environment w0))
                   (EpsilonGreedyAgent.q_values l) w = (inr O, tick_np w)).
  { rewrite select_exploit.
    - rewrite Hq. unfold np_argmax. rewrite scan_max_keep; [reflexivity |].
      intros y Hy. unfold np_zeros in Hy.
      apply elem_of_replicate in Hy as [-> _]. exact Hq0.
    - intros Hlt. destruct Hsrc as (Hu & _). rewrite <- Hs in Hu.
      destruct (Hu (np_state w)) as [H0 _]. apply (Qlt_irrefl 0).
      eapply Qle_lt_trans; [exact H0 |].
      eapply Qlt_le_trans; [exact Hlt | exact Heps]. }
  destruct (pull_returns_payout O (tick_np w)) as (reward & Hpull & Hpay);
    [simpl; rewrite Henv; exact Hinv | simpl; rewrite Henv, Harms; lia |].
  assert (Hr : 0 <= reward).
  { destruct Hpay as [-> | Hin]; [apply Qle_refl |].
    apply Hpos. simpl in Hin. rewrite Henv in Hin. exact Hin. }
  eexists _, _. split.
  - unfold EpsilonGreedyAgent.body, bind. rewrite Hsel.
    rewrite Hpull.
    unfold lift.
    rewrite (update_eq l O reward s0 i);
      [reflexivity | rewrite Hsum; reflexivity
       | rewrite Hcount; reflexivity | rewrite Hq; simpl; lia].
  - split; [repeat split; assumption |]. simpl.
    rewrite Hq, Hsum, Hcount. simpl.
    split; [eexists; split; [reflexivity |] |].
    { apply Qdiv_nonneg; [apply Qplus_nonneg; assumption | apply Qnat_nonneg]. }
    split; [eexists; split; [reflexivity |] |].
    { apply Qplus_nonneg; assumption. }
    split; [f_equal; lia | lia].
Qed.

Lemma first_arm_loop (n : nat) :
  returns (EpsilonGreedyAgent.loop (EpsilonGreedyAgent.new n epsilon0)) w0
    (first_arm_inv n).
Proof.
  unfold EpsilonGreedyAgent.loop. apply returns_bind, returns_ret.
  cbn [EpsilonGreedyAgent.steps EpsilonGreedyAgent.epsilon].
  pose proof (returns_for_in first_arm_inv
                (fun _ : nat =>
                   EpsilonGreedyAgent.body epsilon0 (k_arms (environment w0)))
                (py_range n)) as H.
  unfold py_range in *. rewrite length_seq in H. apply H.
  - intros i x s w _. apply first_arm_body.
  - split; [apply same_setting_refl |]. rewrite Harms. simpl.
    split; [exists 0; split; [reflexivity | apply Qle_refl] |].
    split; [exists 0; split; [reflexivity | apply Qle_refl] |].
    split; [reflexivity | lia].
Qed.

End GreedyWithoutExploration.

(** X14. Without exploration ([epsilon] at 0 or less) and with payouts
    that are not negative, [EpsilonGreedyAgent] pulls arm 0 at every step:
    the estimate of arm 0 never falls below the 0 of the arms that were
    never tried, and [np.argmax] keeps the first maximum.  The counts it
    returns are [n] for arm 0 and 0 for every other arm. *)
Theorem greedy_stays_on_first_arm (w : World) (n : nat) (epsilon0 : Q) :
  env_invariant (environment w) ->
  source_ok (source w) ->
  (1 <= k_arms (environment w))%nat ->
  epsilon0 <= 0 ->
  (forall r, r ∈ rewards (environment w) -> 0 <= r) ->
  exists obtained cumulative w',
    EpsilonGreedyAgent.step (EpsilonGreedyAgent.new n epsilon0) w =
    (inr (n :: np_zeros_nat (Nat.pred (k_arms (environment w))),
          obtained, cumulative), w') /\
    np_state w' = (np_state w + 2 * n)%nat.
Proof.
  intros Hinv Hsrc Harms Heps Hpos.
  destruct (k_arms (environment w)) as [| k'] eqn:Hk; [lia |].
  destruct (first_arm_loop w epsilon0 k' Hinv Hsrc Hk Heps Hpos n)
    as (l & w' & Hloop & _ & _ & _ & Hcount & Hnp).
  eexists _, _, w'. unfold EpsilonGreedyAgent.step, bind. rewrite Hloop.
  unfold ret. rewrite Hcount. split; [reflexivity | exact Hnp].
Qed.

Lemma greedy_stays_on_first_arm_witness :
  exists obtained cumulative w',
    EpsilonGreedyAgent.step (EpsilonGreedyAgent.new 8 0) example_world =
    (inr ([8; 0; 0]%nat, obtained, cumulative), w') /\
    np_state w' = 16%nat.
Proof.
  apply (greedy_stays_on_first_arm example_world 8 0).
  - split; reflexivity.
  - exact example_source_ok.
  - simpl; lia.
  - discriminate.
  - simpl. intros r Hr. apply list_elem_of_In in Hr. simpl in Hr.
    destruct Hr as [<- | [<- | [<- | []]]]; discriminate.
Defined.

(** ** The notebook's own cells *)

(** The cell that builds the environment: [arms] draws of
    [random.random()] for the probabilities, then [arms] draws of
    [random.randint(0, 100)] for the payouts; the list of payouts is also
    the module-level variable [rewards].  The two draws are given by
    position, as in a [RandomSource]. *)
Definition notebook_environment (arms : nat) (random_random : nat -> Q)
    (random_randint : nat -> Z) : list Q * SlotMachineEnvironment :=
  let reward_probs := random_random <$> seq 0 arms in
  let rewards0 := (fun t => inject_Z (random_randint t)) <$> seq arms arms in
  (rewards0, SlotMachineEnvironment_init reward_probs rewards0).

(** The world after that cell, with [arms = 10]: the [random] module has
    given 20 draws, numpy's generator none. *)
Definition notebook_world (random_random : nat -> Q)
    (random_randint : nat -> Z) (src : RandomSource) : World :=
  let built := notebook_environment 10 random_random random_randint in
  mkWorld (snd built) (fst built) src 0 20.

Definition notebook_steps : nat := Z.to_nat 10000.

(** The cells that run the agents, one after the other over the same
    environment, and keep the series that are plotted. *)
Definition notebook_runs : M (list Q * list Q * list Q * list Q * list Q) :=
  ra <- RandomAgent.step (RandomAgent.new notebook_steps) ;;
  epsg <- EpsilonGreedyAgent.step
            (EpsilonGreedyAgent.new notebook_steps (1 # 10)) ;;
  epsg_2 <- EpsilonGreedyAgent.step
              (EpsilonGreedyAgent.new notebook_steps (1 # 100)) ;;
  epsg_3 <- EpsilonGreedyAgent.step
              (EpsilonGreedyAgent.new notebook_steps (1 # 1000)) ;;
  ths <- ThompsonSamplingAgent.step
           (ThompsonSamplingAgent.new notebook_steps) ;;
  ret (snd ra, snd epsg, snd epsg_2, snd epsg_3, snd ths).

(** X15. The environment that the notebook builds satisfies the invariant
    of the data model for every number of arms, its list of payouts is the
    module-level [rewards], and when [random.randint(0, 100)] stays in
    its range every payout is between 0 and 100. *)
Theorem notebook_environment_invariant (arms : nat)
    (random_random : nat -> Q) (random_randint : nat -> Z) :
  let built := notebook_environment arms random_random random_randint in
  env_invariant (snd built) /\
  k_arms (snd built) = arms /\
  fst built = rewards (snd built) /\
  ((forall t, (0 <= random_randint t <= 100)%Z) ->
   forall r, r ∈ rewards (snd built) -> 0 <= r /\ r <= 100).
Proof.
  simpl. unfold env_invariant. simpl.
  rewrite !length_fmap, !length_seq.
  split; [split; reflexivity |]. do 2 (split; [reflexivity |]).
  intros Hrange r Hr. apply list_elem_of_fmap in Hr as (t & -> & _). split.
  - change 0 with (inject_Z 0). rewrite <- Zle_Qle. apply Hrange.
  - change 100 with (inject_Z 100). rewrite <- Zle_Qle. apply Hrange.
Qed.

Lemma random_step_returns (self : RandomAgent.t) (avg : Q) w :
  env_invariant (environment w) ->
  source_ok (source w) ->
  (1 <= k_arms (environment w))%nat ->
  py_mean (global_rewards w) = inr avg ->
  returns (RandomAgent.step self) w
    (fun r w' => same_setting w w' /\
                 snd r = replicate (RandomAgent.steps self) avg).
Proof.
  intros Hinv Hsrc Harms Havg.
  destruct (random_loop_inv w avg Hinv Hsrc Harms Havg self)
    as (l & w' & Hloop & Hset & _ & _ & _ & Hcum).
  eexists _, w'. unfold RandomAgent.step, bind. rewrite Hloop.
  split; [reflexivity |]. split; [exact Hset | exact Hcum].
Qed.

Lemma greedy_step_returns (n : nat) (epsilon0 : Q) w :
  env_invariant (environment w) ->
  source_ok (source w) ->
  (1 <= k_arms (environment w))%nat ->
  returns (EpsilonGreedyAgent.step (EpsilonGreedyAgent.new n epsilon0)) w
    (fun r w' => same_setting w w' /\ length (snd r) = n).
Proof.
  intros Hinv Hsrc Harms.
  destruct (greedy_loop_inv w epsilon0 Hinv Hsrc Harms n)
    as (l & w' & Hloop & Hset & _ & _ & _ & _ & _ & Hcum).
  eexists _, w'. unfold EpsilonGreedyAgent.step, bind. rewrite Hloop.
  split; [reflexivity |]. split; [exact Hset | exact Hcum].
Qed.

Lemma thompson_step_returns (self : ThompsonSamplingAgent.t) w :
  env_invariant (environment w) ->
  source_ok (source w) ->
  (1 <= k_arms (environment w))%nat ->
  returns (ThompsonSamplingAgent.step self) w
    (fun r w' => same_setting w w' /\
                 length (snd r) = ThompsonSamplingAgent.steps self).
Proof.
  intros Hinv Hsrc Harms.
  destruct (thompson_loop_inv w Hinv Hsrc Harms self)
    as (l & w' & Hloop & Hset & _ & _ & _ & _ & _ & _ & Hcum).
  eexists _, w'. unfold ThompsonSamplingAgent.step, bind. rewrite Hloop.
  split; [reflexivity |]. split; [exact Hset | exact Hcum].
Qed.

Lemma same_setting_trans w1 w2 w3 :
  same_setting w1 w2 -> same_setting w2 w3 -> same_setting w1 w3.
Proof.
  intros (H1 & H2 & H3) (H4 & H5 & H6). repeat split; congruence.
Qed.

Lemma notebook_runs_returns (avg : Q) w :
  env_invariant (environment w) ->
  source_ok (source w) ->
  (1 <= k_arms (environment w))%nat ->
  py_mean (global_rewards w) = inr avg ->
  returns notebook_runs w
    (fun series w' =>
       let '(ra, epsg, epsg_2, epsg_3, ths) := series in
       same_setting w w' /\
       ra = replicate notebook_steps avg /\
       length epsg = notebook_steps /\
       length epsg_2 = notebook_steps /\
       length epsg_3 = notebook_steps /\
       length ths = notebook_steps).
Proof.
  intros Hinv Hsrc Harms Havg. unfold notebook_runs.
  assert (Hkeep : forall w', same_setting w w' ->
            env_invariant (environment w') /\ source_ok (source w') /\
            (1 <= k_arms (environment w'))%nat).
  { intros w' (-> & -> & _). auto. }
  apply returns_bind.
  eapply returns_weaken;
    [apply (random_step_returns (RandomAgent.new notebook_steps) avg);
     assumption |].
  intros ra w1 [Hset1 Hra]. cbv beta.
  destruct (Hkeep w1 Hset1) as (Hinv1 & Hsrc1 & Harms1).
  apply returns_bind.
  eapply returns_weaken; [apply greedy_step_returns; assumption |].
  intros epsg w2 [Hset2 He1]. cbv beta.
  pose proof (same_setting_trans _ _ _ Hset1 Hset2) as Hset12.
  destruct (Hkeep w2 Hset12) as (Hinv2 & Hsrc2 & Harms2).
  apply returns_bind.
  eapply returns_weaken; [apply greedy_step_returns; assumption |].
  intros epsg_2 w3 [Hset3 He2]. cbv beta.
  pose proof (same_setting_trans _ _ _ Hset12 Hset3) as Hset13.
  destruct (Hkeep w3 Hset13) as (Hinv3 & Hsrc3 & Harms3).
  apply returns_bind.
  eapply returns_weaken; [apply greedy_step_returns; assumption |].
  intros epsg_3 w4 [Hset4 He3]. cbv beta.
  pose proof (same_setting_trans _ _ _ Hset13 Hset4) as Hset14.
  destruct (Hkeep w4 Hset14) as (Hinv4 & Hsrc4 & Harms4).
  apply returns_bind.
  eapply returns_weaken;
    [apply (thompson_step_returns
              (ThompsonSamplingAgent.new notebook_steps)); assumption |].
  intros ths w5 [Hset5 Hth]. cbv beta.
  apply returns_ret.
  split; [eapply same_setting_trans; eassumption |]. auto.
Qed.

(** X16. The cells of the notebook compose: over the environment of ten
    arms that the notebook builds, and with generators within their
    ranges, the five runs return without an exception, each with a series
    of 10000 entries for the plot; the series of [RandomAgent] is the
    constant average of the ten payouts, and the environment is the same
    object after the five runs. *)
Theorem notebook_runs_complete (random_random : nat -> Q)
    (random_randint : nat -> Z) (src : RandomSource) :
  source_ok src ->
  let w := notebook_world random_random random_randint src in
  exists ra epsg epsg_2 epsg_3 ths w',
    notebook_runs w = (inr (ra, epsg, epsg_2, epsg_3, ths), w') /\
    ra = replicate notebook_steps
           (py_sum (rewards (environment w)) / Qnat 10) /\
    length epsg = notebook_steps /\
    length epsg_2 = notebook_steps /\
    length epsg_3 = notebook_steps /\
    length ths = notebook_steps /\
    environment w' = environment w.
Proof.
  intros Hsrc w.
  destruct (notebook_runs_returns
              (py_sum (rewards (environment w)) / Qnat 10) w)
    as ([[[[ra epsg] epsg_2] epsg_3] ths] & w' & Hrun & Hset & Hra & H1 &
        H2 & H3 & H4).
  - split; reflexivity.
  - exact Hsrc.
  - simpl. lia.
  - reflexivity.
  - exists ra, epsg, epsg_2, epsg_3, ths, w'.
    destruct Hset as (Henv & _). auto 10.
Qed.

Lemma notebook_runs_complete_witness :
  exists series w',
    notebook_runs
      (notebook_world (fun t => Qnat t / 20) (fun t => (5 * Z.of_nat t)%Z)
                      example_source) = (inr series, w').
Proof.
  destruct (notebook_runs_complete (fun t => Qnat t / 20)
              (fun t => (5 * Z.of_nat t)%Z) example_source
              example_source_ok)
    as (ra & epsg & epsg_2 & epsg_3 & ths & w' & Hrun & _).
  eexists _, w'. exact Hrun.
Defined.
